(** * Incident response bot: the incident store and its metrics

    A shallow embedding of [services/incidentManager.ts],
    [services/metricsCollector.ts] and the severity normalisation of
    [app.ts], with the properties of the incident timeline engine.

    Conventions of the embedding.
    - A JavaScript [Date] is the number of milliseconds since the epoch, a [Z].
    - Optional fields ([description?], [assignee?], ...) are [option]s; a
      field that is absent is [None].
    - The TypeScript string-literal unions ([severity], [status], [source],
      event [type]) are inductive types.
    - [Map<string, Incident>] iterates in insertion order, so the incident
      table is an association list with the semantics of [Map.prototype.set]
      (overwrite in place, or append).  The two tables that are only looked
      up by key are [gmap]s.
    - Incident objects are mutated in place through the reference held by
      the table; every object is referenced from exactly one slot, so the
      embedding writes the updated record back into its slot.
    - [new Date()], [Date.now()] and [Math.random()] read the environment:
      the [n]-th reading of the clock is [clock n], the [n]-th random draw
      is [mathRandom n]; the world counts the readings made so far.
    - [console.log] calls are not modelled.  The methods are [async] but
      contain no [await]: each call runs to completion. *)

From Stdlib Require Import ZArith QArith Qround Qfield Lia Ascii String.
From stdpp Require Import base option list strings gmap.

Set Default Proof Using "Type".

(** ** Data model (incidentManager.ts, interfaces) *)

Definition Date := Z.

Inductive Severity := P0 | P1 | P2 | P3.
Inductive Status := S_open | S_investigating | S_resolved | S_closed.
Inductive Source := Src_manual | Src_webhook | Src_monitoring.
Inductive EventType :=
  T_created | T_assigned | T_status_changed | T_comment | T_resolved | T_closed.

#[global] Instance Severity_eq_dec : EqDecision Severity.
Proof. solve_decision. Defined.
#[global] Instance Status_eq_dec : EqDecision Status.
Proof. solve_decision. Defined.
#[global] Instance Source_eq_dec : EqDecision Source.
Proof. solve_decision. Defined.
#[global] Instance EventType_eq_dec : EqDecision EventType.
Proof. solve_decision. Defined.

(** The text a template string prints for a value of the union. *)
Definition severity_str (s : Severity) : string :=
  match s with P0 => "P0" | P1 => "P1" | P2 => "P2" | P3 => "P3" end.

Definition status_str (s : Status) : string :=
  match s with
  | S_open => "open" | S_investigating => "investigating"
  | S_resolved => "resolved" | S_closed => "closed"
  end.

(** [===] on two values of the union. *)
Definition status_eqb (a b : Status) : bool :=
  match a, b with
  | S_open, S_open | S_investigating, S_investigating
  | S_resolved, S_resolved | S_closed, S_closed => true
  | _, _ => false
  end.

Definition severity_eqb (a b : Severity) : bool :=
  match a, b with
  | P0, P0 | P1, P1 | P2, P2 | P3, P3 => true
  | _, _ => false
  end.

(** The [metadata] object literals the manager attaches to its events. *)
Inductive EventMetadata :=
| MetaSeverity (severity : Severity)
| MetaAssignee (oldAssignee : option string) (newAssignee : string)
| MetaStatus (oldStatus newStatus : Status).

Record IncidentEvent := {
  ev_id : string;
  ev_incidentId : string;
  ev_type : EventType;
  ev_message : string;
  ev_userId : option string;
  ev_timestamp : Date;
  ev_metadata : option EventMetadata
}.

(** [metadata?: any] is an opaque payload the manager never inspects. *)
Record Incident := {
  id : string;
  title : string;
  description : option string;
  severity : Severity;
  status : Status;
  assignee : option string;
  channelId : option string;
  createdAt : Date;
  updatedAt : Date;
  resolvedAt : option Date;
  closedAt : option Date;
  source : Source;
  timeline : list IncidentEvent;
  tags : list string;
  metadata : option string
}.

Record CreateIncidentRequest := {
  req_title : string;
  req_description : option string;
  req_severity : Severity;
  req_assignee : option string;
  req_source : option Source;
  req_tags : option (list string);
  req_metadata : option string
}.

Inductive RotationType := R_primary | R_secondary | R_escalation.

Record RotationSchedule := {
  rot_startDate : Date;
  rot_endDate : Date;
  rot_userId : string;
  rot_type : RotationType
}.

Record OnCallSchedule := {
  teamId : string;
  teamName : string;
  primary : string;
  secondary : option string;
  escalation : list string;
  sched_timezone : string;
  sched_rotations : list RotationSchedule
}.

(** ** [Map<string, V>] in insertion order *)

Section JsMap.
Context {V : Type}.

Fixpoint map_get (k : string) (m : list (string * V)) : option V :=
  match m with
  | [] => None
  | (k', v) :: m' => if String.eqb k' k then Some v else map_get k m'
  end.

(** [Map.prototype.set]: an existing key keeps its position. *)
Fixpoint map_set (k : string) (v : V) (m : list (string * V)) : list (string * V) :=
  match m with
  | [] => [(k, v)]
  | (k', v') :: m' =>
      if String.eqb k' k then (k, v) :: m' else (k', v') :: map_set k v m'
  end.

Definition map_values (m : list (string * V)) : list V := map snd m.
End JsMap.

(** ** The manager and the world it runs in *)

Record IncidentManager := {
  incidents : list (string * Incident);
  incidentEvents : gmap string (list IncidentEvent);
  onCallSchedules : gmap string OnCallSchedule
}.

Record World := {
  manager : IncidentManager;
  dateCalls : nat;
  randomCalls : nat
}.

(** State monad over the world. *)
Definition M (A : Type) : Type := World -> A * World.

#[global] Instance M_ret : MRet M := fun A (a : A) (w : World) => (a, w).
#[global] Instance M_bind : MBind M :=
  fun A B (k : A -> M B) (c : M A) (w : World) => let (a, w') := c w in k a w'.

Definition getIncidents : M (list (string * Incident)) :=
  fun w => (incidents (manager w), w).

Definition putIncidents (m : list (string * Incident)) : M unit :=
  fun w =>
    (tt, {| manager := {| incidents := m;
                          incidentEvents := incidentEvents (manager w);
                          onCallSchedules := onCallSchedules (manager w) |};
            dateCalls := dateCalls w;
            randomCalls := randomCalls w |}).

(** ** Strings: [toUpperCase], [toLowerCase], [Number.prototype.toString(36)]

    The case conversions act on the ASCII letters.  On other characters
    JavaScript may change the text too, but never into an ASCII letter that
    the code below compares with or prints. *)

Definition upper_ascii (c : ascii) : ascii :=
  let n := nat_of_ascii c in
  if (97 <=? n)%nat && (n <=? 122)%nat then ascii_of_nat (n - 32) else c.

Definition lower_ascii (c : ascii) : ascii :=
  let n := nat_of_ascii c in
  if (65 <=? n)%nat && (n <=? 90)%nat then ascii_of_nat (n + 32) else c.

Fixpoint string_map (f : ascii -> ascii) (s : string) : string :=
  match s with
  | EmptyString => EmptyString
  | String c s' => String (f c) (string_map f s')
  end.

Definition toUpperCase : string -> string := string_map upper_ascii.
Definition toLowerCase : string -> string := string_map lower_ascii.

Definition digit36 (d : Z) : ascii :=
  if (d <? 10)%Z then ascii_of_nat (48 + Z.to_nat d)
  else ascii_of_nat (87 + Z.to_nat d).

Fixpoint toString36_digits (fuel : nat) (n : Z) (acc : string) : string :=
  match fuel with
  | O => acc
  | S fuel' =>
      let acc' := String (digit36 (n mod 36)) acc in
      if (n / 36 =? 0)%Z then acc' else toString36_digits fuel' (n / 36) acc'
  end.

(** [n.toString(36)] for an integer [n]. *)
Definition toString36 (n : Z) : string :=
  let digits m := toString36_digits (S (Z.to_nat (Z.log2 m))) m "" in
  if (n <? 0)%Z then "-" +:+ digits (- n)%Z else digits n.

(** JavaScript truthiness of an optional string: [undefined] and [""] are
    falsy. *)
Definition truthy (s : option string) : bool :=
  match s with
  | None => false
  | Some s => negb (String.eqb s "")
  end.

(** Printing an optional string inside a template string. *)
Definition opt_str (s : option string) : string := default "undefined" s.

(** Field assignments on an incident object. *)
Definition set_assignee (a : option string) (i : Incident) : Incident :=
  {| id := id i; title := title i; description := description i;
     severity := severity i; status := status i; assignee := a;
     channelId := channelId i; createdAt := createdAt i;
     updatedAt := updatedAt i; resolvedAt := resolvedAt i;
     closedAt := closedAt i; source := source i; timeline := timeline i;
     tags := tags i; metadata := metadata i |}.

Definition set_status (s : Status) (i : Incident) : Incident :=
  {| id := id i; title := title i; description := description i;
     severity := severity i; status := s; assignee := assignee i;
     channelId := channelId i; createdAt := createdAt i;
     updatedAt := updatedAt i; resolvedAt := resolvedAt i;
     closedAt := closedAt i; source := source i; timeline := timeline i;
     tags := tags i; metadata := metadata i |}.

Definition set_updatedAt (d : Date) (i : Incident) : Incident :=
  {| id := id i; title := title i; description := description i;
     severity := severity i; status := status i; assignee := assignee i;
     channelId := channelId i; createdAt := createdAt i;
     updatedAt := d; resolvedAt := resolvedAt i;
     closedAt := closedAt i; source := source i; timeline := timeline i;
     tags := tags i; metadata := metadata i |}.

Definition set_resolvedAt (d : Date) (i : Incident) : Incident :=
  {| id := id i; title := title i; description := description i;
     severity := severity i; status := status i; assignee := assignee i;
     channelId := channelId i; createdAt := createdAt i;
     updatedAt := updatedAt i; resolvedAt := Some d;
     closedAt := closedAt i; source := source i; timeline := timeline i;
     tags := tags i; metadata := metadata i |}.

Definition set_closedAt (d : Date) (i : Incident) : Incident :=
  {| id := id i; title := title i; description := description i;
     severity := severity i; status := status i; assignee := assignee i;
     channelId := channelId i; createdAt := createdAt i;
     updatedAt := updatedAt i; resolvedAt := resolvedAt i;
     closedAt := Some d; source := source i; timeline := timeline i;
     tags := tags i; metadata := metadata i |}.

(** [incident.timeline.push(event)] *)
Definition timeline_push (e : IncidentEvent) (i : Incident) : Incident :=
  {| id := id i; title := title i; description := description i;
     severity := severity i; status := status i; assignee := assignee i;
     channelId := channelId i; createdAt := createdAt i;
     updatedAt := updatedAt i; resolvedAt := resolvedAt i;
     closedAt := closedAt i; source := source i;
     timeline := timeline i ++ [e];
     tags := tags i; metadata := metadata i |}.

(** ** IncidentManager (incidentManager.ts) *)

Definition defaultSchedule : OnCallSchedule :=
  {| teamId := "default"; teamName := "Engineering";
     primary := "U123456789"; secondary := Some "U987654321";
     escalation := ["U555666777"; "U888999000"];
     sched_timezone := "UTC"; sched_rotations := [] |}.

(** [new IncidentManager()] *)
Definition new_IncidentManager : IncidentManager :=
  {| incidents := [];
     incidentEvents := ∅;
     onCallSchedules := <["default" := defaultSchedule]> ∅ |}.

Definition getIncident (mgr : IncidentManager) (incidentId : string) : option Incident :=
  map_get incidentId (incidents mgr).

Definition getAllIncidents (mgr : IncidentManager) : list Incident :=
  map_values (incidents mgr).

Definition getOpenIncidents (mgr : IncidentManager) : list Incident :=
  List.filter
    (fun incident =>
       status_eqb (status incident) S_open
       || status_eqb (status incident) S_investigating)
    (getAllIncidents mgr).

Section Operations.
(** The environment: what the [n]-th [new Date()] / [Date.now()] returns,
    and the text of the [n]-th [Math.random().toString(36)]. *)
Variable clock : nat -> Z.
Variable mathRandom : nat -> string.

Definition newDate : M Date :=
  fun w => (clock (dateCalls w),
            {| manager := manager w;
               dateCalls := S (dateCalls w);
               randomCalls := randomCalls w |}).

Definition mathRandom_toString36 : M string :=
  fun w => (mathRandom (randomCalls w),
            {| manager := manager w;
               dateCalls := dateCalls w;
               randomCalls := S (randomCalls w) |}).

Definition generateIncidentId : M string :=
  now ← newDate;
  r ← mathRandom_toString36;
  let timestamp := toString36 now in
  let random := String.substring 2 5 r in
  mret (toUpperCase ("INC-" +:+ timestamp +:+ "-" +:+ random)).

Definition generateEventId : M string :=
  now ← newDate;
  r ← mathRandom_toString36;
  let timestamp := toString36 now in
  let random := String.substring 2 3 r in
  mret (toUpperCase ("EVT-" +:+ timestamp +:+ "-" +:+ random)).

Definition createIncident (request : CreateIncidentRequest) : M Incident :=
  id0 ← generateIncidentId;
  now ← newDate;
  let incident :=
    {| id := id0;
       title := req_title request;
       description := req_description request;
       severity := req_severity request;
       status := S_open;
       assignee := req_assignee request;
       channelId := None;
       createdAt := now;
       updatedAt := now;
       resolvedAt := None;
       closedAt := None;
       source := default Src_manual (req_source request);
       timeline := [];
       tags := default [] (req_tags request);
       metadata := req_metadata request |} in
  evid ← generateEventId;
  let creationEvent :=
    {| ev_id := evid;
       ev_incidentId := id0;
       ev_type := T_created;
       ev_message := "Incident created: " +:+ title incident;
       ev_userId := None;
       ev_timestamp := now;
       ev_metadata := Some (MetaSeverity (severity incident)) |} in
  let incident := timeline_push creationEvent incident in
  m ← getIncidents;
  putIncidents (map_set id0 incident m);;
  mret incident.

Definition assignIncident (incidentId assignee0 : string) : M bool :=
  m ← getIncidents;
  match map_get incidentId m with
  | None => mret false
  | Some incident =>
      let oldAssignee := assignee incident in
      let incident := set_assignee (Some assignee0) incident in
      d ← newDate;
      let incident := set_updatedAt d incident in
      evid ← generateEventId;
      ts ← newDate;
      let event :=
        {| ev_id := evid;
           ev_incidentId := incidentId;
           ev_type := T_assigned;
           ev_message :=
             if truthy oldAssignee
             then "Incident reassigned from " +:+ opt_str oldAssignee
                    +:+ " to " +:+ assignee0
             else "Incident assigned to " +:+ assignee0;
           ev_userId := None;
           ev_timestamp := ts;
           ev_metadata := Some (MetaAssignee oldAssignee assignee0) |} in
      putIncidents (map_set incidentId (timeline_push event incident) m);;
      mret true
  end.

Definition updateIncidentStatus (incidentId : string) (status0 : Status)
    (userId : option string) : M bool :=
  m ← getIncidents;
  match map_get incidentId m with
  | None => mret false
  | Some incident =>
      let oldStatus := status incident in
      let incident := set_status status0 incident in
      d ← newDate;
      let incident := set_updatedAt d incident in
      incident ←
        (if status_eqb status0 S_resolved then
           r ← newDate; mret (set_resolvedAt r incident)
         else if status_eqb status0 S_closed then
           c ← newDate; mret (set_closedAt c incident)
         else mret incident);
      evid ← generateEventId;
      ts ← newDate;
      let event :=
        {| ev_id := evid;
           ev_incidentId := incidentId;
           ev_type := T_status_changed;
           ev_message :=
             "Status changed from " +:+ status_str oldStatus
               +:+ " to " +:+ status_str status0;
           ev_userId := userId;
           ev_timestamp := ts;
           ev_metadata := Some (MetaStatus oldStatus status0) |} in
      putIncidents (map_set incidentId (timeline_push event incident) m);;
      mret true
  end.

Definition addIncidentComment (incidentId message userId : string) : M bool :=
  m ← getIncidents;
  match map_get incidentId m with
  | None => mret false
  | Some incident =>
      evid ← generateEventId;
      ts ← newDate;
      let event :=
        {| ev_id := evid;
           ev_incidentId := incidentId;
           ev_type := T_comment;
           ev_message := message;
           ev_userId := Some userId;
           ev_timestamp := ts;
           ev_metadata := None |} in
      let incident := timeline_push event incident in
      d ← newDate;
      let incident := set_updatedAt d incident in
      putIncidents (map_set incidentId incident m);;
      mret true
  end.

(** *** Sequences of calls *)

Inductive Op :=
| OpCreate (request : CreateIncidentRequest)
| OpAssign (incidentId assignee0 : string)
| OpUpdateStatus (incidentId : string) (status0 : Status) (userId : option string)
| OpComment (incidentId message userId : string).

(** The outcome of a call: the id of the created incident, or the boolean
    the mutator returned. *)
Inductive Outcome :=
| CreatedId (incidentId : string)
| Returned (ok : bool).

Definition step (op : Op) : M Outcome :=
  match op with
  | OpCreate request => incident ← createIncident request; mret (CreatedId (id incident))
  | OpAssign i a => ok ← assignIncident i a; mret (Returned ok)
  | OpUpdateStatus i s u => ok ← updateIncidentStatus i s u; mret (Returned ok)
  | OpComment i msg u => ok ← addIncidentComment i msg u; mret (Returned ok)
  end.

Fixpoint run (ops : list Op) (w : World) : World :=
  match ops with
  | [] => w
  | op :: ops' => run ops' (snd (step op w))
  end.

End Operations.

(** The world right after [new IncidentManager()]. *)
Definition initial_world : World :=
  {| manager := new_IncidentManager; dateCalls := 0; randomCalls := 0 |}.

(** *** [getIncidentMetrics]

    Counts are array lengths.  The average is a JavaScript number: the
    code divides in double precision and rounds twice.  The embedding keeps
    the exact quotient, in [Q], and no property of the snapshot below reads
    it; the properties of [getIncidentMetrics] are about its counts. *)

Definition isSome {A} (o : option A) : bool :=
  match o with Some _ => true | None => false end.

Record IncidentMetrics := {
  total : nat;
  open : nat;
  investigating : nat;
  resolved : nat;
  closed : nat;
  bySeverity : Severity -> nat;
  avgResolutionTime : Q
}.

(** The callback of the two [reduce] calls. *)
Definition add_resolution_ms (sum : Z) (incident : Incident) : Z :=
  match resolvedAt incident with
  | Some r => (sum + (r - createdAt incident))%Z
  | None => sum
  end.

Definition count_status (s : Status) (l : list Incident) : nat :=
  length (List.filter (fun i => status_eqb (status i) s) l).

Definition count_severity (s : Severity) (l : list Incident) : nat :=
  length (List.filter (fun i => severity_eqb (severity i) s) l).

Definition getIncidentMetrics (mgr : IncidentManager) : IncidentMetrics :=
  let incidents0 := getAllIncidents mgr in
  let resolved0 := List.filter (fun i => isSome (resolvedAt i)) incidents0 in
  let avg :=
    if (0 <? length resolved0)%nat
    then (inject_Z (fold_left add_resolution_ms resolved0 0%Z)
            / inject_Z (Z.of_nat (length resolved0))
            / inject_Z (1000 * 60))%Q
    else 0%Q in
  {| total := length incidents0;
     open := count_status S_open incidents0;
     investigating := count_status S_investigating incidents0;
     resolved := count_status S_resolved incidents0;
     closed := count_status S_closed incidents0;
     bySeverity := fun s => count_severity s incidents0;
     avgResolutionTime := avg |}.

(** ** MetricsCollector (metricsCollector.ts)

    The three gauges written by [updateIncidentStatusMetrics]; a gauge maps
    the value of its label to the number last [set] for it. *)

Record MetricsCollector := {
  incidentsByStatus : gmap string nat;
  incidentsBySeverity : gmap string nat;
  activeIncidents : gmap string nat
}.

Definition updateIncidentStatusMetrics (c : MetricsCollector)
    (incidentManager : IncidentManager) : MetricsCollector :=
  let metrics := getIncidentMetrics incidentManager in
  let byStatus := <["open" := open metrics]> (incidentsByStatus c) in
  let byStatus := <["investigating" := investigating metrics]> byStatus in
  let byStatus := <["resolved" := resolved metrics]> byStatus in
  let byStatus := <["closed" := closed metrics]> byStatus in
  let bySev := <["P0" := bySeverity metrics P0]> (incidentsBySeverity c) in
  let bySev := <["P1" := bySeverity metrics P1]> bySev in
  let bySev := <["P2" := bySeverity metrics P2]> bySev in
  let bySev := <["P3" := bySeverity metrics P3]> bySev in
  {| incidentsByStatus := byStatus;
     incidentsBySeverity := bySev;
     activeIncidents :=
       <["total" := (open metrics + investigating metrics)%nat]> (activeIncidents c) |}.

(** The value a gauge shows for a label (0 before the first [set]). *)
Definition gauge (g : gmap string nat) (label : string) : nat :=
  default 0%nat (g !! label).

(** [Math.round]: the nearest integer, halves towards plus infinity. *)
Definition Math_round (x : Q) : Z := Qfloor (x + (1 # 2)).

Record DailyMetrics := {
  incidentsCreatedToday : nat;
  incidentsResolvedToday : nat;
  avgResolutionTimeToday : Z;
  criticalIncidentsToday : nat;
  dm_activeIncidents : nat
}.

Section DailyMetrics.
(** [d.setHours(0, 0, 0, 0)]: midnight, in the local time zone of the
    process, of the day [d] falls in. *)
Variable setHours0 : Date -> Date.

(** [resolvedAt && resolvedAt >= today] *)
Definition resolved_since (today : Date) (incident : Incident) : bool :=
  match resolvedAt incident with
  | Some r => (today <=? r)%Z
  | None => false
  end.

(** [now] is what [new Date()] returns at the start of the call. *)
Definition generateDailyMetrics (now : Date) (incidentManager : IncidentManager)
    : DailyMetrics :=
  let today := setHours0 now in
  let allIncidents := getAllIncidents incidentManager in
  let createdToday :=
    length (List.filter (fun i => (today <=? createdAt i)%Z) allIncidents) in
  let resolvedToday :=
    length (List.filter (resolved_since today) allIncidents) in
  let criticalToday :=
    length (List.filter
              (fun i => (today <=? createdAt i)%Z
                        && (severity_eqb (severity i) P0
                            || severity_eqb (severity i) P1))
              allIncidents) in
  let resolvedTodayWithTimes :=
    List.filter (fun i => resolved_since today i && true) allIncidents in
  let avg :=
    if (0 <? length resolvedTodayWithTimes)%nat
    then (inject_Z (fold_left add_resolution_ms resolvedTodayWithTimes 0%Z)
            / inject_Z (Z.of_nat (length resolvedTodayWithTimes))
            / inject_Z (1000 * 60))%Q
    else 0%Q in
  {| incidentsCreatedToday := createdToday;
     incidentsResolvedToday := resolvedToday;
     avgResolutionTimeToday := Math_round avg;
     criticalIncidentsToday := criticalToday;
     dm_activeIncidents := length (getOpenIncidents incidentManager) |}.
End DailyMetrics.

(** Midnight for a process whose local time zone is UTC. *)
Definition setHours0_utc (d : Date) : Date := (d - d mod 86400000)%Z.

(** ** Webhook severity normalisation (app.ts) *)

(** [list.includes(s)] on strings. *)
Definition includes (l : list string) (s : string) : bool :=
  existsb (String.eqb s) l.

Definition mapAlertSeverity (alertSeverity : option string) : Severity :=
  let severity0 :=
    toLowerCase (if truthy alertSeverity then opt_str alertSeverity else "") in
  if includes ["critical"; "p0"; "sev0"; "high"] severity0 then P0
  else if includes ["high"; "p1"; "sev1"; "medium"] severity0 then P1
  else if includes ["medium"; "p2"; "sev2"; "low"] severity0 then P2
  else P3.

(** ** Specification-side definitions *)

(** The incident a mutator call names. *)
Definition op_target (op : Op) : option string :=
  match op with
  | OpCreate _ => None
  | OpAssign i _ | OpUpdateStatus i _ _ | OpComment i _ _ => Some i
  end.

(** A status was requested for [target] by one of the calls of [h]. *)
Definition status_was_set (target : string) (s : Status) (h : list Op) : Prop :=
  exists userId, OpUpdateStatus target s userId ∈ h.

(** Timestamps of a timeline are non-decreasing in timeline order. *)
Definition timestamps_nondecreasing (tl : list IncidentEvent) : Prop :=
  forall i j a b,
    (i <= j)%nat -> tl !! i = Some a -> tl !! j = Some b ->
    (ev_timestamp a <= ev_timestamp b)%Z.

Section History.
Variable clock : nat -> Z.
Variable mathRandom : nat -> string.

(** The calls that succeeded on the incident object stored under [target],
    oldest first: the [createIncident] call that made the object, then
    every mutator call on [target] that returned [true].  [acc] is the
    history before [ops] runs from [w]. *)
Fixpoint calls_on (target : string) (ops : list Op) (w : World) (acc : list Op)
    : list Op :=
  match ops with
  | [] => acc
  | op :: ops' =>
      let (out, w') := step clock mathRandom op w in
      let acc' :=
        match out with
        | CreatedId i => if String.eqb i target then [op] else acc
        | Returned true =>
            if bool_decide (op_target op = Some target) then acc ++ [op] else acc
        | Returned false => acc
        end in
      calls_on target ops' w' acc'
  end.

Definition history (target : string) (ops : list Op) : list Op :=
  calls_on target ops initial_world [].

(** What one call does to the incident stored under each id: it stores a
    new object with a one-event timeline, or appends one event to the
    object it names, or fails and leaves the world alone. *)
Inductive step_effect (op : Op) (w : World) : Outcome -> World -> Prop :=
| effect_created request i inc e w' :
    op = OpCreate request ->
    getIncident (manager w') i = Some inc ->
    (forall k, k ≠ i -> getIncident (manager w') k = getIncident (manager w) k) ->
    timeline inc = [e] ->
    ev_timestamp e = clock (1 + dateCalls w) ->
    resolvedAt inc = None -> closedAt inc = None ->
    (dateCalls w < dateCalls w')%nat ->
    step_effect op w (CreatedId i) w'
| effect_mutated i inc inc' e k w' :
    op_target op = Some i ->
    getIncident (manager w) i = Some inc ->
    getIncident (manager w') i = Some inc' ->
    (forall k, k ≠ i -> getIncident (manager w') k = getIncident (manager w) k) ->
    timeline inc' = timeline inc ++ [e] ->
    (dateCalls w <= k < dateCalls w')%nat -> ev_timestamp e = clock k ->
    (is_Some (resolvedAt inc') <->
       is_Some (resolvedAt inc) \/ exists u, op = OpUpdateStatus i S_resolved u) ->
    (is_Some (closedAt inc') <->
       is_Some (closedAt inc) \/ exists u, op = OpUpdateStatus i S_closed u) ->
    step_effect op w (Returned true) w'
| effect_failed :
    step_effect op w (Returned false) w.
End History.

(** [op] is [updateIncidentStatus(target, s, _)]. *)
Definition sets_status (target : string) (s : Status) (op : Op) : bool :=
  match op with
  | OpUpdateStatus i s' _ => String.eqb i target && status_eqb s' s
  | _ => false
  end.

(** [w'] is [w] after a successful mutator call on [i]: the object under [i]
    went from [inc] to [inc'], and the tables are otherwise as they were. *)
Definition mutated (w w' : World) (i : string) (inc inc' : Incident) : Prop :=
  getIncident (manager w) i = Some inc
  /\ incidents (manager w') = map_set i inc' (incidents (manager w))
  /\ incidentEvents (manager w') = incidentEvents (manager w)
  /\ onCallSchedules (manager w') = onCallSchedules (manager w).

(** Clock readings [updateIncidentStatus] makes for the resolved/closed stamp. *)
Definition extra_reads (s : Status) : nat :=
  match s with S_resolved | S_closed => 1 | _ => 0 end.

(** The object [createIncident] builds for [request]. *)
Definition created_incident (request : CreateIncidentRequest) (i : string)
    (now : Date) (e : IncidentEvent) : Incident :=
  {| id := i;
     title := req_title request;
     description := req_description request;
     severity := req_severity request;
     status := S_open;
     assignee := req_assignee request;
     channelId := None;
     createdAt := now;
     updatedAt := now;
     resolvedAt := None;
     closedAt := None;
     source := default Src_manual (req_source request);
     timeline := [e];
     tags := default [] (req_tags request);
     metadata := req_metadata request |}.

(** The history [acc] accounts for the incident stored under [target]: one
    event per call, the first call its creation, and the resolved/closed
    stamps present exactly when the status was requested. *)
Definition tracked (target : string) (w : World) (acc : list Op) : Prop :=
  match getIncident (manager w) target with
  | None => acc = []
  | Some inc =>
      length (timeline inc) = length acc
      /\ (exists request rest,
            acc = OpCreate request :: rest
            /\ Forall (fun op => op_target op = Some target) rest)
      /\ (is_Some (resolvedAt inc) <-> status_was_set target S_resolved acc)
      /\ (is_Some (closedAt inc) <-> status_was_set target S_closed acc)
  end.

(** The timeline under [target] is ordered, and none of its events is later
    than the next reading of the clock. *)
Definition timely (clock : nat -> Z) (target : string) (w : World) : Prop :=
  forall inc, getIncident (manager w) target = Some inc ->
    timestamps_nondecreasing (timeline inc)
    /\ Forall (fun e => (ev_timestamp e <= clock (dateCalls w))%Z) (timeline inc).

(** The fields no mutator writes. *)
Definition same_identity (a b : Incident) : Prop :=
  id b = id a /\ title b = title a /\ description b = description a
  /\ severity b = severity a /\ source b = source a /\ tags b = tags a
  /\ metadata b = metadata a /\ createdAt b = createdAt a
  /\ channelId b = channelId a.

(** The timeline of [b] is that of [a] with one event of type [ty] appended. *)
Definition appended_one (ty : EventType) (a b : Incident) : Prop :=
  exists e, timeline b = timeline a ++ [e] /\ ev_type e = ty.

(** [listOpen] as the specification words it: the incidents of [listAll]
    whose status is open or investigating. *)
Definition is_active (i : Incident) : Prop :=
  status i = S_open \/ status i = S_investigating.

#[global] Instance is_active_dec i : Decision (is_active i).
Proof. unfold is_active. apply _. Defined.

Definition listOpen_spec (mgr : IncidentManager) : list Incident :=
  filter is_active (getAllIncidents mgr).

(** Severity normalisation as the specification words it: a
    case-insensitive match against each set in turn, first match wins. *)
Definition eq_ignoring_case (a b : string) : Prop := toLowerCase a = toLowerCase b.

#[global] Instance eq_ignoring_case_dec a b : Decision (eq_ignoring_case a b).
Proof. unfold eq_ignoring_case. apply _. Defined.

Definition matches_one_of (words : list string) (s : string) : Prop :=
  Exists (eq_ignoring_case s) words.

Definition normalize_spec (alertSeverity : option string) : Severity :=
  let s := default "" alertSeverity in
  if decide (matches_one_of ["critical"; "p0"; "sev0"; "high"] s) then P0
  else if decide (matches_one_of ["high"; "p1"; "sev1"; "medium"] s) then P1
  else if decide (matches_one_of ["medium"; "p2"; "sev2"; "low"] s) then P2
  else P3.

(** Mean time to resolve as the specification words it: the arithmetic mean
    of [resolvedAt - createdAt], in minutes, over the incidents resolved
    since [windowStart]. *)
Definition resolved_today (windowStart : Date) (i : Incident) : Prop :=
  exists r, resolvedAt i = Some r /\ (windowStart <= r)%Z.

#[global] Instance resolved_today_dec ws i : Decision (resolved_today ws i).
Proof.
  unfold resolved_today. destruct (resolvedAt i) as [r|].
  - destruct (decide (ws <= r)%Z) as [H|H].
    + left. eauto.
    + right. intros [r' [E ?]]. by simplify_eq.
  - right. by intros [r' [E ?]].
Defined.

Definition resolution_minutes (i : Incident) : Q :=
  (inject_Z (default (createdAt i) (resolvedAt i) - createdAt i) / inject_Z 60000)%Q.

Definition Qsum (l : list Q) : Q := foldr Qplus 0%Q l.

Definition mean_resolution_minutes (windowStart : Date) (l : list Incident) : Q :=
  let rs := filter (resolved_today windowStart) l in
  match rs with
  | [] => 0%Q
  | _ => (Qsum (map resolution_minutes rs) / inject_Z (Z.of_nat (length rs)))%Q
  end.

(** ** A concrete environment

    The clock advances 30 seconds per reading from 2023-11-14T22:13:20Z;
    every random draw prints as [0.4fzyo82mvyr]. *)

Definition demo_clock (n : nat) : Z := (1700000000000 + 30000 * Z.of_nat n)%Z.
Definition demo_random (n : nat) : string := "0.4fzyo82mvyr".

Definition demo_request : CreateIncidentRequest :=
  {| req_title := "DB down"; req_description := None; req_severity := P1;
     req_assignee := None; req_source := None; req_tags := None;
     req_metadata := None |}.

(** The id [createIncident] generates first in this environment. *)
Definition demo_id : string := "INC-LOYW3V28-4FZYO".

(** A request whose title is empty. *)
Definition untitled_request : CreateIncidentRequest :=
  {| req_title := ""; req_description := None; req_severity := P1;
     req_assignee := None; req_source := None; req_tags := None;
     req_metadata := None |}.

(** A wall clock that is set back one second after its third reading, as
    when the host corrects its time between two calls.  The first reading
    is the one [demo_clock] starts from, so the first id is [demo_id]. *)
Definition stepped_back_clock (n : nat) : Z :=
  if (n <? 3)%nat then 1700000000000%Z else 1699999999000%Z.

(** ** IncidentManager: the remaining methods *)

(** [a === b] for an optional string [a] and a string [b]. *)
Definition opt_is (a : option string) (b : string) : bool :=
  match a with
  | Some s => String.eqb s b
  | None => false
  end.

Definition getIncidentsByAssignee (mgr : IncidentManager) (assignee0 : string)
    : list Incident :=
  List.filter (fun incident => opt_is (assignee incident) assignee0)
    (getAllIncidents mgr).

Definition getIncidentsBySeverity (mgr : IncidentManager) (severity0 : Severity)
    : list Incident :=
  List.filter (fun incident => severity_eqb (severity incident) severity0)
    (getAllIncidents mgr).

(** A parameter [teamId: string = 'default'] is [None] when the caller
    leaves it out. *)
Definition getOnCallSchedule (mgr : IncidentManager) (teamId0 : option string)
    : option OnCallSchedule :=
  onCallSchedules mgr !! default "default" teamId0.

Record CurrentOnCall := {
  oc_primary : option string;
  oc_secondary : option string;
  oc_escalation : list string
}.

Definition getCurrentOnCall (mgr : IncidentManager) (teamId0 : option string)
    : CurrentOnCall :=
  match onCallSchedules mgr !! default "default" teamId0 with
  | None => {| oc_primary := None; oc_secondary := None; oc_escalation := [] |}
  | Some schedule =>
      {| oc_primary := Some (primary schedule);
         oc_secondary := secondary schedule;
         oc_escalation := escalation schedule |}
  end.

(** *** The values the calls compute, spelled out

    [n] counts the clock readings and [r] the random draws made before the
    call. *)

Section Spelled.
Variable clock : nat -> Z.
Variable mathRandom : nat -> string.

Definition incidentId_at (n r : nat) : string :=
  toUpperCase ("INC-" +:+ toString36 (clock n) +:+ "-"
               +:+ String.substring 2 5 (mathRandom r)).

Definition eventId_at (n r : nat) : string :=
  toUpperCase ("EVT-" +:+ toString36 (clock n) +:+ "-"
               +:+ String.substring 2 3 (mathRandom r)).

Definition new_incident (request : CreateIncidentRequest) (n r : nat) : Incident :=
  let i := incidentId_at n r in
  created_incident request i (clock (1 + n))
    {| ev_id := eventId_at (2 + n) (1 + r);
       ev_incidentId := i;
       ev_type := T_created;
       ev_message := "Incident created: " +:+ req_title request;
       ev_userId := None;
       ev_timestamp := clock (1 + n);
       ev_metadata := Some (MetaSeverity (req_severity request)) |}.

Definition after_assign (i a : string) (n r : nat) (inc : Incident) : Incident :=
  timeline_push
    {| ev_id := eventId_at (1 + n) r;
       ev_incidentId := i;
       ev_type := T_assigned;
       ev_message :=
         if truthy (assignee inc)
         then "Incident reassigned from " +:+ opt_str (assignee inc) +:+ " to " +:+ a
         else "Incident assigned to " +:+ a;
       ev_userId := None;
       ev_timestamp := clock (2 + n);
       ev_metadata := Some (MetaAssignee (assignee inc) a) |}
    (set_updatedAt (clock n) (set_assignee (Some a) inc)).

Definition after_status (i : string) (s : Status) (u : option string) (n r : nat)
    (inc : Incident) : Incident :=
  timeline_push
    {| ev_id := eventId_at (1 + extra_reads s + n) r;
       ev_incidentId := i;
       ev_type := T_status_changed;
       ev_message :=
         "Status changed from " +:+ status_str (status inc)
           +:+ " to " +:+ status_str s;
       ev_userId := u;
       ev_timestamp := clock (2 + extra_reads s + n);
       ev_metadata := Some (MetaStatus (status inc) s) |}
    (let inc1 := set_updatedAt (clock n) (set_status s inc) in
     match s with
     | S_resolved => set_resolvedAt (clock (1 + n)) inc1
     | S_closed => set_closedAt (clock (1 + n)) inc1
     | _ => inc1
     end).

Definition after_comment (i msg u : string) (n r : nat) (inc : Incident) : Incident :=
  set_updatedAt (clock (2 + n))
    (timeline_push
       {| ev_id := eventId_at n r;
          ev_incidentId := i;
          ev_type := T_comment;
          ev_message := msg;
          ev_userId := Some u;
          ev_timestamp := clock (1 + n);
          ev_metadata := None |}
       inc).

(** The incident a call writes, and the slot it writes it to. *)
Inductive step_write (w : World) : Op -> string -> Incident -> Prop :=
| write_create request :
    step_write w (OpCreate request)
      (incidentId_at (dateCalls w) (randomCalls w))
      (new_incident request (dateCalls w) (randomCalls w))
| write_assign i a inc :
    getIncident (manager w) i = Some inc ->
    step_write w (OpAssign i a) i
      (after_assign i a (dateCalls w) (randomCalls w) inc)
| write_status i s u inc :
    getIncident (manager w) i = Some inc ->
    step_write w (OpUpdateStatus i s u) i
      (after_status i s u (dateCalls w) (randomCalls w) inc)
| write_comment i msg u inc :
    getIncident (manager w) i = Some inc ->
    step_write w (OpComment i msg u) i
      (after_comment i msg u (dateCalls w) (randomCalls w) inc).
End Spelled.

(** Clock readings and random draws of a successful call. *)
Definition op_reads (op : Op) : nat :=
  match op with
  | OpUpdateStatus _ s _ => (3 + extra_reads s)%nat
  | _ => 3%nat
  end.

Definition op_draws (op : Op) : nat :=
  match op with OpCreate _ => 2%nat | _ => 1%nat end.

(** The world after the successful call [op] wrote [inc'] to slot [i]. *)
Definition world_after (w : World) (op : Op) (i : string) (inc' : Incident) : World :=
  {| manager :=
       {| incidents := map_set i inc' (incidents (manager w));
          incidentEvents := incidentEvents (manager w);
          onCallSchedules := onCallSchedules (manager w) |};
     dateCalls := (op_reads op + dateCalls w)%nat;
     randomCalls := (op_draws op + randomCalls w)%nat |}.

(** *** Reading an id back *)

Definition digit_value (c : ascii) : Z :=
  let n := Z.of_nat (nat_of_ascii c) in
  if (48 <=? n)%Z && (n <=? 57)%Z then (n - 48)%Z
  else if (97 <=? n)%Z && (n <=? 122)%Z then (n - 87)%Z
  else if (65 <=? n)%Z && (n <=? 90)%Z then (n - 55)%Z
  else 0%Z.

(** Base-36 value of the digits of [s] up to its first ["-"]. *)
Fixpoint parse36 (acc : Z) (s : string) : Z :=
  match s with
  | EmptyString => acc
  | String c s' =>
      if Ascii.eqb c "-" then acc else parse36 (36 * acc + digit_value c)%Z s'
  end.

(** The clock reading inside an id [INC-<time>-<random>] or
    [EVT-<time>-<random>]. *)
Definition id_timestamp (i : string) : Z :=
  match i with
  | String _ (String _ (String _ (String _ rest))) => parse36 0 rest
  | _ => 0%Z
  end.

(** The status a timeline records: open, then whatever the status changes
    say, in order. *)
Definition replay_status (tl : list IncidentEvent) : Status :=
  fold_left
    (fun s e => match ev_metadata e with
                | Some (MetaStatus _ new) => new
                | _ => s
                end)
    tl S_open.

(** *** Invariants of the stored incidents *)

(** Every listed incident is stored under its own id, its events point back
    to it, and its timeline opens with its creation event. *)
Definition well_formed (k : string) (inc : Incident) : Prop :=
  id inc = k
  /\ Forall (fun e => ev_incidentId e = k) (timeline inc)
  /\ exists e rest,
       timeline inc = e :: rest
       /\ ev_type e = T_created
       /\ ev_timestamp e = createdAt inc
       /\ ev_metadata e = Some (MetaSeverity (severity inc))
       /\ Forall (fun e' => ev_type e' ≠ T_created) rest.


(** The status and the stamps agree with the timeline: the status is the one
    the timeline replays to, every status change records as old status the
    one replayed up to it, and a resolved (closed) incident has its
    [resolvedAt] ([closedAt]). *)
Definition audited (inc : Incident) : Prop :=
  status inc = replay_status (timeline inc)
  /\ (forall before e after old new,
        timeline inc = before ++ e :: after ->
        ev_metadata e = Some (MetaStatus old new) ->
        old = replay_status before)
  /\ (status inc = S_resolved -> is_Some (resolvedAt inc))
  /\ (status inc = S_closed -> is_Some (closedAt inc)).

(** Times of an incident, for a clock that has been read [n] times. *)
Definition times_ordered (clock : nat -> Z) (n : nat) (inc : Incident) : Prop :=
  (createdAt inc <= updatedAt inc)%Z
  /\ (updatedAt inc <= clock n)%Z
  /\ (forall r, resolvedAt inc = Some r -> (createdAt inc <= r <= clock n)%Z)
  /\ (forall c, closedAt inc = Some c -> (createdAt inc <= c <= clock n)%Z)
  /\ Forall (fun e => (createdAt inc <= ev_timestamp e <= clock n)%Z) (timeline inc).

(** Number of [createIncident] calls in a sequence. *)
Definition count_creates (ops : list Op) : nat :=
  length (List.filter (fun op => match op with OpCreate _ => true | _ => false end) ops).

(** The ids generated by the [createIncident] calls of a sequence run from
    [w], in call order. *)
Fixpoint created_ids (clock : nat -> Z) (mathRandom : nat -> string)
    (ops : list Op) (w : World) : list string :=
  match ops with
  | [] => []
  | op :: ops' =>
      let (out, w') := step clock mathRandom op w in
      match out with
      | CreatedId i => i :: created_ids clock mathRandom ops' w'
      | Returned _ => created_ids clock mathRandom ops' w'
      end
  end.

(** The keys of a [Map] after [set] was called with each id of [ids] in
    turn: an id not yet among the keys is appended, an id already there
    keeps its place. *)
Definition add_key (keys : list string) (i : string) : list string :=
  if decide (i ∈ keys) then keys else keys ++ [i].

Definition add_keys (keys ids : list string) : list string :=
  fold_left add_key ids keys.

(** A clock that stands still, as within one millisecond. *)
Definition frozen_clock (n : nat) : Z := 1700000000000%Z.

(** *** Reading the metrics *)

(** The count the snapshot shows for a status. *)
Definition status_count (m : IncidentMetrics) (s : Status) : nat :=
  match s with
  | S_open => open m
  | S_investigating => investigating m
  | S_resolved => resolved m
  | S_closed => closed m
  end.

Definition b2n (b : bool) : nat := if b then 1%nat else 0%nat.

(** ** The webhook adapter (app.ts)

    [handleIncomingAlert(alert: any)] receives the parsed body of the
    request.  A field read from it is any JSON value, or [undefined] when
    the key is missing; the adapter only tells strings from other values,
    and truthy values from falsy ones.  [JsNullish] is [undefined] or
    [null]; [JsOther t] is a number, a boolean, an array or an object, and
    [t] tells whether it is truthy. *)
Inductive JsValue :=
| JsNullish
| JsString (s : string)
| JsOther (truthy0 : bool).

Definition js_truthy (v : JsValue) : bool :=
  match v with
  | JsNullish => false
  | JsString s => negb (String.eqb s "")
  | JsOther t => t
  end.

(** [a || b] *)
Definition js_or (a b : JsValue) : JsValue :=
  if js_truthy a then a else b.

(** The six fields the adapter reads, and the body as the opaque payload
    that becomes the metadata of the incident.  A body that is not an
    object (a number, a string) has none of the fields. *)
Record Alert := {
  al_severity : JsValue;
  al_priority : JsValue;
  al_summary : JsValue;
  al_title : JsValue;
  al_description : JsValue;
  al_message : JsValue;
  al_body : string
}.

(** [mapAlertSeverity] called on any value: [(x || '').toLowerCase()] is a
    TypeError ([None]) when [x] is truthy and not a string. *)
Definition mapAlertSeverity_any (x : JsValue) : option Severity :=
  match x with
  | JsString s => Some (mapAlertSeverity (Some s))
  | JsOther true => None
  | JsNullish | JsOther false => Some (mapAlertSeverity None)
  end.

(** How a call of the adapter ends.  [AlertUntyped]: the call stores an
    incident whose title or description is not a string; the [Incident]
    interface has no such value and the embedding does not follow it. *)
Inductive AlertOutcome :=
| AlertProcessed (w' : World)
| AlertThrew (w' : World)
| AlertUntyped.

Section Adapters.
Variable clock : nat -> Z.
Variable mathRandom : nat -> string.

(** [alert] is [None] for a body that is [null] or [undefined]: reading
    [alert.severity] throws. *)
Definition handleIncomingAlert (alert : option Alert) (w : World) : AlertOutcome :=
  match alert with
  | None => AlertThrew w
  | Some alert =>
      match mapAlertSeverity_any (js_or (al_severity alert) (al_priority alert)) with
      | None => AlertThrew w
      | Some severity0 =>
          let title0 :=
            js_or (js_or (al_summary alert) (al_title alert))
              (JsString "Unknown Alert") in
          let description0 :=
            js_or (js_or (al_description alert) (al_message alert)) (JsString "") in
          match title0, description0 with
          | JsString title1, JsString description1 =>
              let (incident, w') :=
                createIncident clock mathRandom
                  {| req_title := title1;
                     req_description := Some description1;
                     req_severity := severity0;
                     req_assignee := None;
                     req_source := Some Src_webhook;
                     req_tags := None;
                     req_metadata := Some (al_body alert) |} w in
              AlertProcessed w'
          | _, _ => AlertUntyped
          end
      end
  end.
End Adapters.

(** The string a value is, if it is one. *)
Definition js_string (v : JsValue) : option string :=
  match v with
  | JsString s => Some s
  | _ => None
  end.

(** An alert as a monitoring system sends it. *)
Definition demo_alert : Alert :=
  {| al_severity := JsNullish; al_priority := JsString "HIGH";
     al_summary := JsOther false; al_title := JsString "Disk full";
     al_description := JsNullish; al_message := JsNullish;
     al_body := "{...}" |}.

(** ** The slash commands (slackHandlers.ts)

    The handlers answer through [respond]; the embedding returns which
    answer was given.  Calls to the Slack client are answered by the
    environment: [conversations_create name] is the id of the channel
    created, or [None] when the call throws; [chat_postMessage_ok] tells
    whether posting the first message succeeds.  Inviting users (failures
    are caught one by one) and the calls to the metrics collector do not
    touch the manager and are left out. *)

Record SlackClient := {
  conversations_create : string -> option string;
  chat_postMessage_ok : bool
}.

Definition dquote : ascii := ascii_of_nat 34.

(** [s.replace(/c/g, '')] for a single character [c]. *)
Fixpoint remove_char (c : ascii) (s : string) : string :=
  match s with
  | EmptyString => EmptyString
  | String c' s' =>
      if Ascii.eqb c' c then remove_char c s' else String c' (remove_char c s')
  end.

(** [l.join(sep)] *)
Fixpoint join (sep : string) (l : list string) : string :=
  match l with
  | [] => ""
  | [x] => x
  | x :: l' => x +:+ sep +:+ join sep l'
  end.

(** [['P0', 'P1', 'P2', 'P3'].includes(s)], with the severity [s] is then
    used as. *)
Definition severity_of_token (s : string) : option Severity :=
  if includes ["P0"; "P1"; "P2"; "P3"] s then
    if String.eqb s "P0" then Some P0
    else if String.eqb s "P1" then Some P1
    else if String.eqb s "P2" then Some P2
    else Some P3
  else None.

Definition set_channelId (c : option string) (i : Incident) : Incident :=
  {| id := id i; title := title i; description := description i;
     severity := severity i; status := status i; assignee := assignee i;
     channelId := c; createdAt := createdAt i;
     updatedAt := updatedAt i; resolvedAt := resolvedAt i;
     closedAt := closedAt i; source := source i; timeline := timeline i;
     tags := tags i; metadata := metadata i |}.

(** [incident.channelId = c], where [incident] is the object stored under
    [i]. *)
Definition write_channelId (i c : string) : M unit :=
  m ← getIncidents;
  match map_get i m with
  | Some incident => putIncidents (map_set i (set_channelId (Some c) incident) m)
  | None => mret tt
  end.

Definition getManager : M IncidentManager := fun w => (manager w, w).

(** [/<@([A-Z0-9]+)>/]: the characters of the class, the longest run of
    them, a match at the start of [s], and the leftmost match in [s]. *)
Definition is_mention_char (c : ascii) : bool :=
  let n := nat_of_ascii c in
  ((65 <=? n)%nat && (n <=? 90)%nat) || ((48 <=? n)%nat && (n <=? 57)%nat).

Fixpoint take_mention_chars (s : string) : string * string :=
  match s with
  | EmptyString => (EmptyString, EmptyString)
  | String c s' =>
      if is_mention_char c
      then let (u, rest) := take_mention_chars s' in (String c u, rest)
      else (EmptyString, s)
  end.

Definition mention_at (s : string) : option string :=
  match s with
  | String "<" (String "@" s') =>
      let (u, rest) := take_mention_chars s' in
      match u, rest with
      | String _ _, String ">" _ => Some u
      | _, _ => None
      end
  | _ => None
  end.

(** [s.match(/<@([A-Z0-9]+)>/)], reduced to its first group. *)
Fixpoint matchUserMention (s : string) : option string :=
  match mention_at s with
  | Some u => Some u
  | None =>
      match s with
      | EmptyString => None
      | String _ s' => matchUserMention s'
      end
  end.

Inductive CreateReply :=
| CR_usage
| CR_invalid_severity
| CR_created (incidentId channel : string)
| CR_failed.

Inductive AssignReply :=
| AR_usage
| AR_invalid_mention
| AR_no_active
| AR_assigned (incidentId userId : string)
| AR_failed.

(** The answer to a resolve command; a resolution carries what the handler
    passes to [recordIncidentResolved]. *)
Inductive ResolveReply :=
| RR_no_active
| RR_resolved (incidentId : string) (recorded : option (Severity * Q))
| RR_failed.

(** [openIncidents.find(inc => inc.channelId === channelId)] *)
Definition find_in_channel (channelId0 : string) (l : list Incident) : option Incident :=
  List.find (fun inc => opt_is (channelId inc) channelId0) l.

Section SlashCommands.
Variable clock : nat -> Z.
Variable mathRandom : nat -> string.
Variable slack : SlackClient.

Definition handleCreateIncident (args : list string) (userId : string)
    : M CreateReply :=
  if (length args <? 2)%nat then mret CR_usage
  else
    let title0 := remove_char dquote (join " " (List.removelast args)) in
    let severity0 := toUpperCase (List.last args "") in
    match severity_of_token severity0 with
    | None => mret CR_invalid_severity
    | Some sev =>
        incident ← createIncident clock mathRandom
          {| req_title := title0;
             req_description := None;
             req_severity := sev;
             req_assignee := Some userId;
             req_source := Some Src_manual;
             req_tags := None;
             req_metadata := None |};
        let channelName := "incident-" +:+ toLowerCase (id incident) in
        match conversations_create slack channelName return M CreateReply with
        | None => mret CR_failed
        | Some channel =>
            write_channelId (id incident) channel;;
            if chat_postMessage_ok slack
            then mret (CR_created (id incident) channel)
            else mret CR_failed
        end
    end.

Definition handleAssignCommand (args : list string) (channelId0 : string)
    : M AssignReply :=
  match args with
  | [] => mret AR_usage
  | userMention :: _ =>
      match matchUserMention userMention with
      | None => mret AR_invalid_mention
      | Some userId =>
          mgr ← getManager;
          match find_in_channel channelId0 (getOpenIncidents mgr)
                return M AssignReply with
          | None => mret AR_no_active
          | Some incident =>
              assignIncident clock mathRandom (id incident) userId
              ≫= fun success : bool =>
                if success then mret (AR_assigned (id incident) userId)
                else mret AR_failed
          end
      end
  end.

Definition handleResolveCommand (channelId0 userId : string) : M ResolveReply :=
  mgr ← getManager;
  match find_in_channel channelId0 (getOpenIncidents mgr)
        return M ResolveReply with
  | None => mret RR_no_active
  | Some incident =>
      updateIncidentStatus clock mathRandom (id incident) S_resolved (Some userId)
      ≫= fun success : bool =>
      if success then
        mgr' ← getManager;
        let recorded :=
          match getIncident mgr' (id incident) with
          | Some updatedIncident =>
              match resolvedAt updatedIncident with
              | Some r =>
                  Some (severity updatedIncident,
                        (inject_Z (r - createdAt updatedIncident)
                         / inject_Z (1000 * 60))%Q)
              | None => None
              end
          | None => None
          end in
        mret (RR_resolved (id incident) recorded)
      else mret RR_failed
  end.
End SlashCommands.

(** *** Tables the handlers rely on *)

(** Keys are distinct and every incident sits under its own id. *)
Definition table_ok (w : World) : Prop :=
  NoDup (map fst (incidents (manager w)))
  /\ forall k inc, (k, inc) ∈ incidents (manager w) -> id inc = k.

(** Every character of [s] satisfies [f]. *)
Fixpoint string_forall (f : ascii -> bool) (s : string) : bool :=
  match s with
  | EmptyString => true
  | String c s' => f c && string_forall f s'
  end.

(** * Properties *)

(** ** The insertion-ordered map *)

Lemma map_get_set_eq {V} (k : string) (v : V) m : map_get k (map_set k v m) = Some v.
Proof.
  induction m as [|[k' v'] m IH]; simpl.
  - by rewrite String.eqb_refl.
  - destruct (String.eqb k' k) eqn:E; simpl.
    + by rewrite String.eqb_refl.
    + by rewrite E.
Qed.

Lemma map_get_set_ne {V} (k k' : string) (v : V) m :
  k ≠ k' -> map_get k' (map_set k v m) = map_get k' m.
Proof.
  intros Hne. induction m as [|[k0 v0] m IH]; simpl.
  - destruct (String.eqb k k') eqn:E; [|done]. by apply String.eqb_eq in E.
  - destruct (String.eqb k0 k) eqn:E; simpl.
    + apply String.eqb_eq in E; subst k0.
      destruct (String.eqb k k') eqn:E'; [|done]. by apply String.eqb_eq in E'.
    + destruct (String.eqb k0 k'); [done|apply IH].
Qed.


Lemma mutated_get w w' i inc inc' :
  mutated w w' i inc inc' ->
  getIncident (manager w') i = Some inc'
  /\ forall k, k ≠ i -> getIncident (manager w') k = getIncident (manager w) k.
Proof.
  intros (_ & E & _). unfold getIncident. rewrite E. split.
  - apply map_get_set_eq.
  - intros k Hk. by apply map_get_set_ne.
Qed.

(** ** What each call does *)

Ltac unfold_m :=
  unfold createIncident, assignIncident, updateIncidentStatus, addIncidentComment,
    generateIncidentId, generateEventId, newDate, mathRandom_toString36,
    getIncidents, putIncidents, mbind, M_bind, mret, M_ret; cbn.

Section Effects.
Variable clock : nat -> Z.
Variable mathRandom : nat -> string.
#[local] Abbreviation n0 w := (dateCalls w).

Lemma createIncident_effect request w :
  exists w' i e,
    createIncident clock mathRandom request w
      = (created_incident request i (clock (1 + n0 w)) e, w')
    /\ ev_type e = T_created
    /\ ev_timestamp e = clock (1 + n0 w)
    /\ incidents (manager w')
       = map_set i (created_incident request i (clock (1 + n0 w)) e)
           (incidents (manager w))
    /\ incidentEvents (manager w') = incidentEvents (manager w)
    /\ onCallSchedules (manager w') = onCallSchedules (manager w)
    /\ n0 w' = (3 + n0 w)%nat.
Proof.
  unfold_m. eexists _, _, _. split; [reflexivity|]. by repeat split.
Qed.

Lemma assignIncident_effect w i a inc :
  getIncident (manager w) i = Some inc ->
  exists w' e,
    assignIncident clock mathRandom i a w = (true, w')
    /\ mutated w w' i inc
         (timeline_push e (set_updatedAt (clock (n0 w)) (set_assignee (Some a) inc)))
    /\ ev_type e = T_assigned
    /\ ev_timestamp e = clock (2 + n0 w)
    /\ n0 w' = (3 + n0 w)%nat.
Proof.
  unfold getIncident. intros H. unfold_m. rewrite H. cbn.
  eexists _, _. split; [reflexivity|]. by repeat split.
Qed.

Lemma updateIncidentStatus_effect w i s u inc :
  getIncident (manager w) i = Some inc ->
  exists w' e,
    updateIncidentStatus clock mathRandom i s u w = (true, w')
    /\ mutated w w' i inc
         (timeline_push e
            (let inc1 := set_updatedAt (clock (n0 w)) (set_status s inc) in
             match s with
             | S_resolved => set_resolvedAt (clock (1 + n0 w)) inc1
             | S_closed => set_closedAt (clock (1 + n0 w)) inc1
             | _ => inc1
             end))
    /\ ev_type e = T_status_changed
    /\ ev_metadata e = Some (MetaStatus (status inc) s)
    /\ ev_timestamp e = clock (2 + extra_reads s + n0 w)
    /\ n0 w' = (3 + extra_reads s + n0 w)%nat.
Proof.
  unfold getIncident. intros H. unfold_m. rewrite H.
  destruct s; cbn; eexists _, _; (split; [reflexivity|]); by repeat split.
Qed.

Lemma addIncidentComment_effect w i msg u inc :
  getIncident (manager w) i = Some inc ->
  exists w' e,
    addIncidentComment clock mathRandom i msg u w = (true, w')
    /\ mutated w w' i inc
         (set_updatedAt (clock (2 + n0 w)) (timeline_push e inc))
    /\ ev_type e = T_comment
    /\ ev_timestamp e = clock (1 + n0 w)
    /\ n0 w' = (3 + n0 w)%nat.
Proof.
  unfold getIncident. intros H. unfold_m. rewrite H. cbn.
  eexists _, _. split; [reflexivity|]. by repeat split.
Qed.

(** A mutator fails on an id that is not in the table, without reading
    the clock. *)
Lemma mutators_fail_on_unknown w i :
  getIncident (manager w) i = None ->
  (forall a, assignIncident clock mathRandom i a w = (false, w))
  /\ (forall s u, updateIncidentStatus clock mathRandom i s u w = (false, w))
  /\ (forall msg u, addIncidentComment clock mathRandom i msg u w = (false, w)).
Proof.
  unfold getIncident. intros H. repeat split; intros; unfold_m; by rewrite H.
Qed.

Lemma step_has_effect op w :
  step_effect clock op w
    (step clock mathRandom op w).1 (step clock mathRandom op w).2.
Proof.
  destruct op as [request|i a|i s u|i msg u]; cbn [step];
    unfold mbind, M_bind, mret, M_ret.
  - destruct (createIncident_effect request w)
      as (w' & i & e & E & Hty & Hts & Hinc & _ & _ & Hn).
    rewrite E. cbn.
    eapply effect_created with (e := e)
      (inc := created_incident request i (clock (1 + n0 w)) e);
      eauto; cbn; try done.
    + unfold getIncident. rewrite Hinc. apply map_get_set_eq.
    + intros k Hk. unfold getIncident. rewrite Hinc. by apply map_get_set_ne.
    + lia.
  - destruct (getIncident (manager w) i) as [inc|] eqn:G.
    + destruct (assignIncident_effect w i a inc G)
        as (w' & e & E & Hm & Hty & Hts & Hn).
      rewrite E. cbn. destruct (mutated_get _ _ _ _ _ Hm) as [Hget Hother].
      eapply effect_mutated with (e := e) (k := (2 + n0 w)%nat); eauto;
        cbn; try lia.
      * split; [by left|]. by intros [?|[u ?]].
      * split; [by left|]. by intros [?|[u ?]].
    + destruct (mutators_fail_on_unknown w i G) as (-> & _). constructor.
  - destruct (getIncident (manager w) i) as [inc|] eqn:G.
    + destruct (updateIncidentStatus_effect w i s u inc G)
        as (w' & e & E & Hm & Hty & Hmeta & Hts & Hn).
      rewrite E. cbn. destruct (mutated_get _ _ _ _ _ Hm) as [Hget Hother].
      eapply effect_mutated with (e := e) (k := (2 + extra_reads s + n0 w)%nat);
        eauto; cbn; try lia.
      * by destruct s.
      * destruct s; cbn; split; try (by left); try (by intros [?|[? ?]]);
          try (intros _; right; by eexists); by intros _.
      * destruct s; cbn; split; try (by left); try (by intros [?|[? ?]]);
          try (intros _; right; by eexists); by intros _.
    + destruct (mutators_fail_on_unknown w i G) as (_ & -> & _). constructor.
  - destruct (getIncident (manager w) i) as [inc|] eqn:G.
    + destruct (addIncidentComment_effect w i msg u inc G)
        as (w' & e & E & Hm & Hty & Hts & Hn).
      rewrite E. cbn. destruct (mutated_get _ _ _ _ _ Hm) as [Hget Hother].
      eapply effect_mutated with (e := e) (k := (1 + n0 w)%nat); eauto;
        cbn; try lia.
      * split; [by left|]. by intros [?|[? ?]].
      * split; [by left|]. by intros [?|[? ?]].
    + destruct (mutators_fail_on_unknown w i G) as (_ & _ & ->). constructor.
Qed.

(** The resolved/closed stamps after a mutator call: written by a status
    update to that very status, with the second clock reading of the call;
    otherwise as before. *)
Lemma mutator_stamps op w target inc :
  getIncident (manager w) target = Some inc ->
  is_Some (op_target op) ->
  exists inc',
    getIncident (manager (step clock mathRandom op w).2) target = Some inc'
    /\ resolvedAt inc'
       = (if sets_status target S_resolved op
          then Some (clock (1 + n0 w)) else resolvedAt inc)
    /\ closedAt inc'
       = (if sets_status target S_closed op
          then Some (clock (1 + n0 w)) else closedAt inc).
Proof.
  intros G [i Hi].
  destruct op as [request|j a|j s u|j msg u]; cbn in Hi; simplify_eq;
    cbn [step sets_status]; unfold mbind, M_bind, mret, M_ret.
  - destruct (getIncident (manager w) i) as [inc0|] eqn:G0.
    + destruct (assignIncident_effect w i a inc0 G0) as (w' & e & E & Hm & _).
      rewrite E. cbn. destruct (mutated_get _ _ _ _ _ Hm) as [Hget Hother].
      destruct (decide (i = target)) as [->|Hne].
      * simplify_eq. eexists. split; [exact Hget|]. done.
      * rewrite Hother by done. eauto.
    + destruct (mutators_fail_on_unknown w i G0) as (-> & _). cbn. eauto.
  - destruct (getIncident (manager w) i) as [inc0|] eqn:G0.
    + destruct (updateIncidentStatus_effect w i s u inc0 G0) as (w' & e & E & Hm & _).
      rewrite E. cbn. destruct (mutated_get _ _ _ _ _ Hm) as [Hget Hother].
      destruct (decide (i = target)) as [->|Hne].
      * simplify_eq. rewrite String.eqb_refl. eexists. split; [exact Hget|].
        by destruct s.
      * rewrite Hother by done.
        apply String.eqb_neq in Hne. rewrite Hne. cbn. eauto.
    + destruct (mutators_fail_on_unknown w i G0) as (_ & -> & _). cbn.
      assert (i ≠ target) as Hne by congruence.
      apply String.eqb_neq in Hne. rewrite Hne. cbn. eauto.
  - destruct (getIncident (manager w) i) as [inc0|] eqn:G0.
    + destruct (addIncidentComment_effect w i msg u inc0 G0) as (w' & e & E & Hm & _).
      rewrite E. cbn. destruct (mutated_get _ _ _ _ _ Hm) as [Hget Hother].
      destruct (decide (i = target)) as [->|Hne].
      * simplify_eq. eexists. split; [exact Hget|]. done.
      * rewrite Hother by done. eauto.
    + destruct (mutators_fail_on_unknown w i G0) as (_ & _ & ->). cbn. eauto.
Qed.
End Effects.

(** ** Invariants of call sequences *)

Lemma timestamps_nondecreasing_snoc tl e :
  timestamps_nondecreasing tl ->
  Forall (fun a => (ev_timestamp a <= ev_timestamp e)%Z) tl ->
  timestamps_nondecreasing (tl ++ [e]).
Proof.
  intros Hs Hall i j a b Hij Ha Hb.
  destruct (decide (j < length tl)%nat) as [Hj|Hj].
  - rewrite lookup_app_l in Ha by lia. rewrite lookup_app_l in Hb by lia. eauto.
  - assert (b = e) as ->.
    { rewrite lookup_app_r in Hb by lia.
      destruct (j - length tl)%nat; cbn in Hb; [congruence|done]. }
    destruct (decide (i < length tl)%nat) as [Hi|Hi].
    + rewrite lookup_app_l in Ha by lia.
      rewrite Forall_forall in Hall. apply Hall. eapply list_elem_of_lookup_2, Ha.
    + rewrite lookup_app_r in Ha by lia.
      destruct (i - length tl)%nat; cbn in Ha; [|done]. by simplify_eq.
Qed.

Lemma status_was_set_snoc target s acc op :
  status_was_set target s (acc ++ [op])
  <-> status_was_set target s acc \/ exists u, op = OpUpdateStatus target s u.
Proof.
  unfold status_was_set. split.
  - intros [u Hu]. apply elem_of_app in Hu as [Hu|Hu]; [left; eauto|].
    apply list_elem_of_singleton in Hu. right; eauto.
  - intros [[u Hu]|[u ->]]; exists u; apply elem_of_app; [by left|right].
    by apply list_elem_of_singleton.
Qed.

Section Traces.
Variable clock : nat -> Z.
Variable mathRandom : nat -> string.
Variable target : string.

Lemma tracked_run ops : forall w acc,
  tracked target w acc ->
  tracked target (run clock mathRandom ops w)
    (calls_on clock mathRandom target ops w acc).
Proof.
  induction ops as [|op ops IH]; intros w acc Hw; [done|].
  cbn [run calls_on].
  pose proof (step_has_effect clock mathRandom op w) as Heff.
  destruct (step clock mathRandom op w) as [out w'] eqn:Estep. cbn in Heff |- *.
  apply IH. clear IH. unfold tracked in *.
  destruct Heff as [request i inc e w' Hop Hget Hother Htl Hts Hr Hc Hn
                   |i inc inc' e k w' Htgt Hget Hget' Hother Htl Hk Hts Hr Hc|].
  - destruct (String.eqb i target) eqn:E.
    + apply String.eqb_eq in E; subst i. rewrite Hget, Htl, Hr, Hc, Hop. cbn.
      split; [done|]. split; [by eexists _, []|].
      unfold status_was_set.
      split; (split; [by intros []|]); intros [u Hu];
        by apply list_elem_of_singleton in Hu.
    + apply String.eqb_neq in E. by rewrite Hother.
  - case_bool_decide as E.
    + assert (i = target) as -> by congruence.
      rewrite Hget in Hw. rewrite Hget'. destruct Hw as (Hlen & Hcr & Hres & Hclo).
      rewrite Htl, !length_app. cbn. split; [lia|].
      split.
      { destruct Hcr as (request & rest & -> & Hrest).
        exists request, (rest ++ [op]). split; [done|].
        apply Forall_app. split; [done|]. by constructor. }
      by rewrite !status_was_set_snoc, Hr, Hc, Hres, Hclo.
    + assert (i ≠ target) by congruence. by rewrite Hother.
  - done.
Qed.

Lemma tracked_initial : tracked target initial_world [].
Proof. done. Qed.

Section MonotoneClock.
Hypothesis clock_step : forall n, (clock n <= clock (S n))%Z.

Lemma clock_mono n m : (n <= m)%nat -> (clock n <= clock m)%Z.
Proof using clock_step.
  induction 1 as [|m _ IH]; [lia|]. specialize (clock_step m). lia.
Qed.

Lemma timely_later w w' inc :
  (dateCalls w <= dateCalls w')%nat ->
  Forall (fun e => (ev_timestamp e <= clock (dateCalls w))%Z) (timeline inc) ->
  Forall (fun e => (ev_timestamp e <= clock (dateCalls w'))%Z) (timeline inc).
Proof using clock_step.
  intros Hn Hb. eapply Forall_impl; [exact Hb|].
  intros x Hx. cbn in Hx. etrans; [exact Hx|]. by apply clock_mono.
Qed.

Lemma timely_run ops : forall w,
  timely clock target w -> timely clock target (run clock mathRandom ops w).
Proof using clock_step.
  induction ops as [|op ops IH]; intros w Hw; [done|].
  cbn [run]. apply IH. clear IH.
  pose proof (step_has_effect clock mathRandom op w) as Heff.
  destruct (step clock mathRandom op w) as [out w']. cbn in Heff |- *.
  unfold timely in *.
  destruct Heff as [request i inc e w' Hop Hget Hother Htl Hts Hr Hc Hn
                   |i inc inc' e k w' Htgt Hget Hget' Hother Htl Hk Hts Hr Hc|];
    [| |done].
  - intros inc0 Hinc0. destruct (decide (i = target)) as [->|Hne].
    + rewrite Hget in Hinc0. simplify_eq. rewrite Htl. split.
      * intros [|a] [|b] x y Hab Hx Hy; cbn in *; simplify_eq; lia.
      * constructor; [|done]. rewrite Hts. apply clock_mono. lia.
    + rewrite Hother in Hinc0 by done. destruct (Hw _ Hinc0) as [Hs Hb].
      split; [done|]. apply (timely_later w); [lia|done].
  - intros inc0 Hinc0. destruct (decide (i = target)) as [->|Hne].
    + rewrite Hget' in Hinc0. simplify_eq. destruct (Hw _ Hget) as [Hs Hb].
      rewrite Htl. split.
      * apply timestamps_nondecreasing_snoc; [done|].
        eapply Forall_impl; [exact Hb|]. intros x Hx. cbn in Hx.
        rewrite Hts. etrans; [exact Hx|]. apply clock_mono. lia.
      * apply Forall_app. split; [apply (timely_later w); [lia|done]|].
        constructor; [|done]. rewrite Hts. apply clock_mono. lia.
    + rewrite Hother in Hinc0 by done. destruct (Hw _ Hinc0) as [Hs Hb].
      split; [done|]. apply (timely_later w); [lia|done].
Qed.
End MonotoneClock.
End Traces.

(** ** The incident store *)

(** C1, as stated, fails: a second [updateIncidentStatus(id, 'resolved')]
    right after the first one overwrites [resolvedAt] with the time of the
    second call. *)
Lemma second_resolve_overwrites_resolvedAt :
  let w1 := run demo_clock demo_random
              [OpCreate demo_request; OpUpdateStatus demo_id S_resolved None]
              initial_world in
  let w2 := (updateIncidentStatus demo_clock demo_random demo_id S_resolved None w1).2 in
  resolvedAt <$> getIncident (manager w1) demo_id = Some (Some 1700000120000%Z)
  /\ resolvedAt <$> getIncident (manager w2) demo_id = Some (Some 1700000240000%Z)
  /\ resolvedAt <$> getIncident (manager w2) demo_id
     ≠ resolvedAt <$> getIncident (manager w1) demo_id.
Proof. vm_compute. repeat split; discriminate. Qed.

(** C1 (amended).  After any sequence of calls on a new manager, the
    incident stored under an id has [resolvedAt] (resp. [closedAt]) set if
    and only if a status update to resolved (resp. closed) has succeeded on
    it since it was created.  No assign, status update or comment unsets a
    stamp: a status update of this incident to resolved (resp. closed) --
    every one, not only the first -- writes the stamp with the clock reading
    of that call, and any other mutator call leaves both stamps as they
    were. *)
Theorem stamps_follow_status_updates clock mathRandom ops target inc :
  getIncident (manager (run clock mathRandom ops initial_world)) target = Some inc ->
  (is_Some (resolvedAt inc)
     <-> status_was_set target S_resolved (history clock mathRandom target ops))
  /\ (is_Some (closedAt inc)
     <-> status_was_set target S_closed (history clock mathRandom target ops))
  /\ forall op, is_Some (op_target op) ->
       let w := run clock mathRandom ops initial_world in
       exists inc',
         getIncident (manager (step clock mathRandom op w).2) target = Some inc'
         /\ resolvedAt inc'
            = (if sets_status target S_resolved op
               then Some (clock (1 + dateCalls w)) else resolvedAt inc)
         /\ closedAt inc'
            = (if sets_status target S_closed op
               then Some (clock (1 + dateCalls w)) else closedAt inc).
Proof.
  intros G.
  pose proof (tracked_run clock mathRandom target ops initial_world []
                (tracked_initial target)) as Ht.
  unfold tracked in Ht. rewrite G in Ht. destruct Ht as (_ & _ & Hr & Hc).
  split; [exact Hr|]. split; [exact Hc|].
  intros op Hop w. by apply mutator_stamps.
Qed.

Lemma stamps_follow_status_updates_witness :
  let ops := [OpCreate demo_request; OpUpdateStatus demo_id S_resolved None] in
  let w := run demo_clock demo_random ops initial_world in
  exists inc inc',
    getIncident (manager w) demo_id = Some inc
    /\ (is_Some (resolvedAt inc)
        <-> status_was_set demo_id S_resolved
              (history demo_clock demo_random demo_id ops))
    /\ getIncident
         (manager (step demo_clock demo_random
                     (OpUpdateStatus demo_id S_resolved None) w).2) demo_id
       = Some inc'
    /\ resolvedAt inc' = Some (demo_clock 8).
Proof.
  intros ops w.
  assert (exists inc, getIncident (manager w) demo_id = Some inc) as [inc G].
  { eexists. vm_compute. reflexivity. }
  destruct (stamps_follow_status_updates demo_clock demo_random ops demo_id inc G)
    as (Hr & _ & Hnext).
  destruct (Hnext (OpUpdateStatus demo_id S_resolved None)) as (inc' & G' & Hr' & _).
  { by eexists. }
  exists inc, inc'. split; [exact G|]. split; [exact Hr|]. split; [exact G'|].
  exact Hr'.
Defined.




(** C3.  Whatever the request, the incident [createIncident] returns is
    open, its timeline is one event of type [created], its [createdAt] and
    [updatedAt] are equal, and [getIncident] on its id returns it. *)
Theorem created_incident_is_open_and_visible clock mathRandom request w :
  let r := createIncident clock mathRandom request w in
  status r.1 = S_open
  /\ (exists e, timeline r.1 = [e] /\ ev_type e = T_created)
  /\ createdAt r.1 = updatedAt r.1
  /\ getIncident (manager r.2) (id r.1) = Some r.1.
Proof.
  destruct (createIncident_effect clock mathRandom request w)
    as (w' & i & e & E & Hty & _ & Hinc & _).
  rewrite E. cbn. repeat split; eauto.
  unfold getIncident. rewrite Hinc. apply map_get_set_eq.
Qed.

(** C4, as stated, fails in its second half: the timestamps are readings
    of the wall clock ([new Date()]) and the code orders nothing.  When the
    clock is set back one second between the creation and an assignment,
    the [assigned] event is stamped before the [created] event it follows.
    The timeline still has one event per successful call. *)
Lemma timeline_follows_a_clock_set_back :
  let ops := [OpCreate demo_request; OpAssign demo_id "U1"] in
  exists inc,
    getIncident (manager (run stepped_back_clock demo_random ops initial_world))
      demo_id = Some inc
    /\ length (timeline inc)
       = length (history stepped_back_clock demo_random demo_id ops)
    /\ map ev_timestamp (timeline inc) = [1700000000000; 1699999999000]%Z
    /\ ~ timestamps_nondecreasing (timeline inc).
Proof.
  intros ops. eexists. split; [vm_compute; reflexivity|].
  split; [vm_compute; reflexivity|]. split; [vm_compute; reflexivity|].
  intros Hord. pose proof (Hord 0%nat 1%nat) as H. vm_compute in H.
  exact (H _ _ (le_S _ _ (le_n _)) eq_refl eq_refl eq_refl).
Qed.

(** C4 (amended).  After any sequence of calls on a new manager, the
    timeline of the incident stored under an id has one event per call that
    succeeded on it: the [createIncident] call that made it, then the
    assign, status update and comment calls on its id that returned [true].
    Provided successive readings of the clock never decrease, the
    timestamps are non-decreasing along the timeline. *)
Theorem timeline_counts_successful_calls clock mathRandom ops target inc :
  getIncident (manager (run clock mathRandom ops initial_world)) target = Some inc ->
  length (timeline inc) = length (history clock mathRandom target ops)
  /\ (exists request rest,
        history clock mathRandom target ops = OpCreate request :: rest
        /\ Forall (fun op => op_target op = Some target) rest)
  /\ ((forall n, (clock n <= clock (S n))%Z) ->
      timestamps_nondecreasing (timeline inc)).
Proof.
  intros G.
  pose proof (tracked_run clock mathRandom target ops initial_world []
                (tracked_initial target)) as Ht.
  unfold tracked in Ht. rewrite G in Ht. destruct Ht as (Hlen & Hcr & _).
  split; [exact Hlen|]. split; [exact Hcr|].
  intros Hclock.
  refine (proj1 (timely_run clock mathRandom target Hclock ops initial_world _ inc G)).
  intros inc0 Hinc0. discriminate Hinc0.
Qed.

Lemma timeline_counts_successful_calls_witness :
  let ops := [OpCreate demo_request; OpAssign demo_id "U1";
              OpAssign "missing-id" "U1";
              OpUpdateStatus demo_id S_resolved None;
              OpComment demo_id "fixed" "U2"] in
  exists inc,
    getIncident (manager (run demo_clock demo_random ops initial_world)) demo_id
      = Some inc
    /\ length (timeline inc) = 4%nat
    /\ length (history demo_clock demo_random demo_id ops) = 4%nat
    /\ timestamps_nondecreasing (timeline inc).
Proof.
  intros ops. eexists. split; [vm_compute; reflexivity|].
  split; [vm_compute; reflexivity|]. split; [vm_compute; reflexivity|].
  apply (timeline_counts_successful_calls demo_clock demo_random ops demo_id).
  - vm_compute. reflexivity.
  - intros n. unfold demo_clock. lia.
Defined.

(** C5.  On an id that is not in the store, [assignIncident],
    [updateIncidentStatus] and [addIncidentComment] return [false] and the
    world -- the incident table with every timeline and field, the other
    tables, and even the count of clock readings -- is as before the call. *)
Theorem unknown_id_fails_without_effect clock mathRandom w incidentId :
  getIncident (manager w) incidentId = None ->
  (forall a, assignIncident clock mathRandom incidentId a w = (false, w))
  /\ (forall s u,
        updateIncidentStatus clock mathRandom incidentId s u w = (false, w))
  /\ (forall msg u,
        addIncidentComment clock mathRandom incidentId msg u w = (false, w)).
Proof. apply mutators_fail_on_unknown. Qed.

Lemma unknown_id_fails_without_effect_witness :
  let w := run demo_clock demo_random [OpCreate demo_request] initial_world in
  assignIncident demo_clock demo_random "missing-id" "U1" w = (false, w).
Proof.
  intros w.
  apply (unknown_id_fails_without_effect demo_clock demo_random w "missing-id").
  vm_compute. reflexivity.
Defined.

(** C10.  A successful [assignIncident], [updateIncidentStatus] or
    [addIncidentComment] on a stored incident leaves its id, title,
    description, severity, source, tags, metadata, [createdAt] and
    [channelId] unchanged, appends one event of its own type, writes
    [updatedAt] with a clock reading of the call, and beyond that writes
    only: the assignee (assign); the status, and [resolvedAt] or [closedAt]
    when the new status is resolved or closed (status update); nothing
    (comment).  Incidents stored under other ids are not touched. *)
Theorem mutators_write_only_their_fields clock mathRandom w i inc :
  getIncident (manager w) i = Some inc ->
  (forall a, exists w' inc',
      assignIncident clock mathRandom i a w = (true, w')
      /\ getIncident (manager w') i = Some inc'
      /\ (forall k, k ≠ i -> getIncident (manager w') k = getIncident (manager w) k)
      /\ same_identity inc inc'
      /\ appended_one T_assigned inc inc'
      /\ updatedAt inc' = clock (dateCalls w)
      /\ assignee inc' = Some a
      /\ status inc' = status inc
      /\ resolvedAt inc' = resolvedAt inc
      /\ closedAt inc' = closedAt inc)
  /\ (forall s u, exists w' inc',
      updateIncidentStatus clock mathRandom i s u w = (true, w')
      /\ getIncident (manager w') i = Some inc'
      /\ (forall k, k ≠ i -> getIncident (manager w') k = getIncident (manager w) k)
      /\ same_identity inc inc'
      /\ appended_one T_status_changed inc inc'
      /\ updatedAt inc' = clock (dateCalls w)
      /\ assignee inc' = assignee inc
      /\ status inc' = s
      /\ resolvedAt inc'
         = (if status_eqb s S_resolved
            then Some (clock (1 + dateCalls w)) else resolvedAt inc)
      /\ closedAt inc'
         = (if status_eqb s S_closed
            then Some (clock (1 + dateCalls w)) else closedAt inc))
  /\ (forall msg u, exists w' inc',
      addIncidentComment clock mathRandom i msg u w = (true, w')
      /\ getIncident (manager w') i = Some inc'
      /\ (forall k, k ≠ i -> getIncident (manager w') k = getIncident (manager w) k)
      /\ same_identity inc inc'
      /\ appended_one T_comment inc inc'
      /\ updatedAt inc' = clock (2 + dateCalls w)
      /\ assignee inc' = assignee inc
      /\ status inc' = status inc
      /\ resolvedAt inc' = resolvedAt inc
      /\ closedAt inc' = closedAt inc).
Proof.
  intros G. split; [|split].
  - intros a.
    destruct (assignIncident_effect clock mathRandom w i a inc G)
      as (w' & e & E & Hm & Hty & _).
    destruct (mutated_get _ _ _ _ _ Hm) as [Hget Hother].
    eexists _, _. split; [exact E|]. split; [exact Hget|]. split; [exact Hother|].
    split; [by repeat split|]. split; [by exists e|]. by repeat split.
  - intros s u.
    destruct (updateIncidentStatus_effect clock mathRandom w i s u inc G)
      as (w' & e & E & Hm & Hty & _).
    destruct (mutated_get _ _ _ _ _ Hm) as [Hget Hother].
    eexists _, _. split; [exact E|]. split; [exact Hget|]. split; [exact Hother|].
    split; [by destruct s; repeat split|].
    split; [exists e; by destruct s|]. by destruct s; repeat split.
  - intros msg u.
    destruct (addIncidentComment_effect clock mathRandom w i msg u inc G)
      as (w' & e & E & Hm & Hty & _).
    destruct (mutated_get _ _ _ _ _ Hm) as [Hget Hother].
    eexists _, _. split; [exact E|]. split; [exact Hget|]. split; [exact Hother|].
    split; [by repeat split|]. split; [by exists e|]. by repeat split.
Qed.

Lemma mutators_write_only_their_fields_witness :
  let w := run demo_clock demo_random [OpCreate demo_request] initial_world in
  exists w' inc',
    addIncidentComment demo_clock demo_random demo_id "looking" "U2" w = (true, w')
    /\ getIncident (manager w') demo_id = Some inc'
    /\ title inc' = "DB down"
    /\ updatedAt inc' = demo_clock 5.
Proof.
  intros w.
  assert (exists inc, getIncident (manager w) demo_id = Some inc
                      /\ title inc = "DB down") as (inc & G & Ht).
  { eexists. split; vm_compute; reflexivity. }
  destruct (mutators_write_only_their_fields demo_clock demo_random w demo_id inc G)
    as (_ & _ & Hcomment).
  destruct (Hcomment "looking" "U2")
    as (w' & inc' & E & G' & _ & (_ & Htitle & _) & _ & Hupd & _).
  exists w', inc'. split; [exact E|]. split; [exact G'|].
  split; [by rewrite Htitle|exact Hupd].
Defined.

Lemma filter_bool_prop {A} (f : A -> bool) (P : A -> Prop) `{forall x, Decision (P x)}
    (l : list A) :
  (forall x, f x = true <-> P x) -> List.filter f l = filter P l.
Proof.
  intros Hf. induction l as [|x l IH]; [done|].
  rewrite filter_cons, <- IH. cbn [List.filter].
  destruct (f x) eqn:E, (decide (P x)) as [HP|HP]; try done.
  - by apply Hf in E.
  - apply Hf in HP. congruence.
Qed.

Lemma active_test i :
  status_eqb (status i) S_open || status_eqb (status i) S_investigating = true
  <-> is_active i.
Proof. unfold is_active. destruct (status i); cbn; intuition congruence. Qed.

(** C6.  [getOpenIncidents] is the list of the incidents of
    [getAllIncidents] whose status is open or investigating, in the order
    [getAllIncidents] has them. *)
Theorem open_incidents_are_the_active_ones mgr :
  getOpenIncidents mgr = listOpen_spec mgr
  /\ sublist (getOpenIncidents mgr) (getAllIncidents mgr)
  /\ forall i, i ∈ getOpenIncidents mgr <-> i ∈ getAllIncidents mgr /\ is_active i.
Proof.
  assert (getOpenIncidents mgr = listOpen_spec mgr) as E.
  { unfold getOpenIncidents, listOpen_spec. apply filter_bool_prop, active_test. }
  rewrite E. unfold listOpen_spec. split; [done|]. split.
  - apply sublist_filter.
  - intros i. rewrite list_elem_of_filter. tauto.
Qed.

(** ** Metrics *)

Lemma count_status_cons s i l :
  count_status s (i :: l)
  = ((if status_eqb (status i) s then 1 else 0) + count_status s l)%nat.
Proof. unfold count_status. cbn [List.filter]. by destruct (status_eqb _ _). Qed.

Lemma count_severity_cons s i l :
  count_severity s (i :: l)
  = ((if severity_eqb (severity i) s then 1 else 0) + count_severity s l)%nat.
Proof. unfold count_severity. cbn [List.filter]. by destruct (severity_eqb _ _). Qed.

Lemma count_status_total l :
  (count_status S_open l + count_status S_investigating l
   + count_status S_resolved l + count_status S_closed l = length l)%nat.
Proof.
  induction l as [|i l IH]; [done|].
  rewrite !count_status_cons. cbn [length]. destruct (status i); cbn; lia.
Qed.

Lemma count_severity_total l :
  (count_severity P0 l + count_severity P1 l
   + count_severity P2 l + count_severity P3 l = length l)%nat.
Proof.
  induction l as [|i l IH]; [done|].
  rewrite !count_severity_cons. cbn [length]. destruct (severity i); cbn; lia.
Qed.

(** C7.  In the snapshot of [getIncidentMetrics], the four per-status
    counts add up to the total, and so do the four per-severity counts; the
    total is the number of stored incidents.  The gauges
    [updateIncidentStatusMetrics] writes from the snapshot add up to it too. *)
Theorem metrics_buckets_sum_to_total mgr :
  let m := getIncidentMetrics mgr in
  (open m + investigating m + resolved m + closed m = total m)%nat
  /\ (bySeverity m P0 + bySeverity m P1 + bySeverity m P2 + bySeverity m P3
      = total m)%nat
  /\ total m = length (getAllIncidents mgr)
  /\ forall c,
       let c' := updateIncidentStatusMetrics c mgr in
       (gauge (incidentsByStatus c') "open"
        + gauge (incidentsByStatus c') "investigating"
        + gauge (incidentsByStatus c') "resolved"
        + gauge (incidentsByStatus c') "closed" = total m)%nat
       /\ (gauge (incidentsBySeverity c') "P0" + gauge (incidentsBySeverity c') "P1"
           + gauge (incidentsBySeverity c') "P2" + gauge (incidentsBySeverity c') "P3"
           = total m)%nat.
Proof.
  cbn. split; [apply count_status_total|]. split; [apply count_severity_total|].
  split; [done|]. intros c.
  unfold gauge, updateIncidentStatusMetrics. cbn.
  repeat (rewrite lookup_insert_eq || rewrite lookup_insert_ne by done). cbn.
  split; [apply count_status_total|apply count_severity_total].
Qed.

(** ** Webhook severity normalisation *)

Lemma includes_lowercase words s :
  Forall (fun w => toLowerCase w = w) words ->
  includes words (toLowerCase s) = true <-> matches_one_of words s.
Proof.
  intros Hlow. unfold includes, matches_one_of, eq_ignoring_case.
  rewrite existsb_exists, Exists_exists. rewrite Forall_forall in Hlow.
  split.
  - intros (w & Hin & E). apply String.eqb_eq in E. exists w.
    apply list_elem_of_In in Hin. split; [done|]. by rewrite (Hlow w).
  - intros (w & Hin & E). exists w. split; [by apply list_elem_of_In|].
    apply String.eqb_eq. by rewrite E, (Hlow w).
Qed.

Lemma mapAlertSeverity_Some s :
  mapAlertSeverity (Some s)
  = if includes ["critical"; "p0"; "sev0"; "high"] (toLowerCase s) then P0
    else if includes ["high"; "p1"; "sev1"; "medium"] (toLowerCase s) then P1
    else if includes ["medium"; "p2"; "sev2"; "low"] (toLowerCase s) then P2
    else P3.
Proof.
  unfold mapAlertSeverity. cbn.
  destruct (String.eqb s "") eqn:E; [|done].
  apply String.eqb_eq in E. by subst.
Qed.

(** C9.  [mapAlertSeverity] is the normalisation the specification words:
    the alert severity, absent counting as the empty string, is compared
    without regard to letter case with critical, p0, sev0, high (then P0),
    else with high, p1, sev1, medium (then P1), else with medium, p2, sev2,
    low (then P2), and is P3 otherwise; two severities that differ only in
    letter case map alike.  Since the first match wins, high is P0 and
    medium is P1. *)
Theorem mapAlertSeverity_is_the_normalisation :
  (forall a, mapAlertSeverity a = normalize_spec a)
  /\ (forall a b, eq_ignoring_case a b ->
        mapAlertSeverity (Some a) = mapAlertSeverity (Some b))
  /\ (forall s, matches_one_of ["critical"; "p0"; "sev0"; "high"] s ->
        mapAlertSeverity (Some s) = P0)
  /\ (forall s, matches_one_of ["p1"; "sev1"; "medium"] s ->
        mapAlertSeverity (Some s) = P1)
  /\ (forall s, matches_one_of ["p2"; "sev2"; "low"] s ->
        mapAlertSeverity (Some s) = P2)
  /\ (forall s, ~ matches_one_of
                    ["critical"; "p0"; "sev0"; "high"; "p1"; "sev1"; "medium";
                     "p2"; "sev2"; "low"] s ->
        mapAlertSeverity (Some s) = P3)
  /\ mapAlertSeverity None = P3
  /\ mapAlertSeverity (Some "") = P3.
Proof.
  assert (forall a, mapAlertSeverity a = normalize_spec a) as Hspec.
  { intros a.
    assert (mapAlertSeverity a = mapAlertSeverity (Some (default "" a))) as ->
      by by destruct a.
    rewrite mapAlertSeverity_Some. unfold normalize_spec. cbv zeta.
    generalize (default "" a). intros s.
    repeat match goal with
    | |- context [includes ?l (toLowerCase s)] =>
        let H := fresh in
        pose proof (includes_lowercase l s ltac:(by repeat constructor)) as H;
        destruct (includes l (toLowerCase s));
        [apply proj1 in H; specialize (H eq_refl)
        |assert (~ matches_one_of l s) by (intros ?%H; discriminate); clear H]
    end;
    repeat case_decide; done. }
  split; [exact Hspec|]. split; [|split; [|split; [|split; [|split]]]].
  - intros a b Hab. rewrite !mapAlertSeverity_Some. unfold eq_ignoring_case in Hab.
    by rewrite Hab.
  - intros s Hs. rewrite mapAlertSeverity_Some.
    unfold matches_one_of, eq_ignoring_case in Hs.
    rewrite !Exists_cons, Exists_nil in Hs.
    by destruct Hs as [E|[E|[E|[E|[]]]]]; rewrite E.
  - intros s Hs. rewrite mapAlertSeverity_Some.
    unfold matches_one_of, eq_ignoring_case in Hs.
    rewrite !Exists_cons, Exists_nil in Hs.
    by destruct Hs as [E|[E|[E|[]]]]; rewrite E.
  - intros s Hs. rewrite mapAlertSeverity_Some.
    unfold matches_one_of, eq_ignoring_case in Hs.
    rewrite !Exists_cons, Exists_nil in Hs.
    by destruct Hs as [E|[E|[E|[]]]]; rewrite E.
  - intros s Hs. rewrite Hspec. unfold normalize_spec. cbn.
    unfold matches_one_of in *. rewrite !Exists_cons, Exists_nil in Hs.
    rewrite !decide_False; [done| | |]; rewrite !Exists_cons, Exists_nil; tauto.
  - split; reflexivity.
Qed.

Lemma mapAlertSeverity_is_the_normalisation_witness :
  mapAlertSeverity (Some "High") = P0 /\ mapAlertSeverity (Some "MEDIUM") = P1.
Proof.
  destruct mapAlertSeverity_is_the_normalisation as (_ & _ & H0 & H1 & _).
  split; [apply H0|apply H1]; unfold matches_one_of.
  - do 3 apply Exists_cons_tl. apply Exists_cons_hd. reflexivity.
  - do 2 apply Exists_cons_tl. apply Exists_cons_hd. reflexivity.
Defined.

(** ** The daily report *)

Lemma resolved_since_test today i :
  resolved_since today i && true = true <-> resolved_today today i.
Proof.
  unfold resolved_since, resolved_today. rewrite andb_true_r.
  destruct (resolvedAt i) as [r|].
  - rewrite Z.leb_le. split; [eauto|]. intros (r' & E & H). by simplify_eq.
  - split; [done|]. by intros (r' & E & H).
Qed.

Lemma fold_resolution_minutes l : forall z,
  (inject_Z (fold_left add_resolution_ms l z) / inject_Z 60000
   == inject_Z z / inject_Z 60000 + Qsum (map resolution_minutes l))%Q.
Proof.
  induction l as [|i l IH]; intros z; cbn [fold_left map].
  - unfold Qsum. cbn [foldr]. ring.
  - rewrite IH.
    change (Qsum (resolution_minutes i :: map resolution_minutes l))
      with (resolution_minutes i + Qsum (map resolution_minutes l))%Q.
    unfold add_resolution_ms, resolution_minutes.
    destruct (resolvedAt i) as [r|]; unfold default, from_option, Datatypes.id.
    + rewrite inject_Z_plus. field.
    + rewrite Z.sub_diag. field.
Qed.

Lemma Math_round_nearest x :
  (inject_Z (Math_round x) - (1 # 2) <= x)%Q
  /\ (x < inject_Z (Math_round x) + (1 # 2))%Q.
Proof.
  unfold Math_round.
  pose proof (Qfloor_le (x + (1 # 2))) as Hle.
  pose proof (Qlt_floor (x + (1 # 2))) as Hlt.
  rewrite inject_Z_plus in Hlt.
  split.
  - apply Qplus_le_l with (z := 1 # 2). ring_simplify. ring_simplify in Hle. exact Hle.
  - apply Qplus_lt_l with (z := 1 # 2). 
    eapply Qlt_le_trans; [exact Hlt|]. apply Qle_lteq. right. ring.
Qed.

Lemma Math_round_proper x y : (x == y)%Q -> Math_round x = Math_round y.
Proof. intros E. unfold Math_round. by rewrite E. Qed.

(** C8, as stated, fails: the report rounds.  One incident resolved 90
    seconds after its creation has a mean of one and a half minutes; the
    report says 2. *)
Lemma daily_average_of_90_seconds_is_2 :
  let w := run demo_clock demo_random
             [OpCreate demo_request; OpUpdateStatus demo_id S_resolved None]
             initial_world in
  let now := demo_clock 7 in
  (createdAt <$> getIncident (manager w) demo_id) = Some (demo_clock 1)
  /\ (resolvedAt <$> getIncident (manager w) demo_id) = Some (Some (demo_clock 1 + 90000)%Z)
  /\ avgResolutionTimeToday (generateDailyMetrics setHours0_utc now (manager w)) = 2%Z
  /\ (mean_resolution_minutes (setHours0_utc now) (getAllIncidents (manager w))
      == 3 # 2)%Q
  /\ ~ (inject_Z 2 == 3 # 2)%Q.
Proof. vm_compute. repeat split; discriminate. Qed.

(** C8 (amended).  The daily report's [avgResolutionTimeToday] is
    [Math.round] of the arithmetic mean of [resolvedAt - createdAt], in
    minutes, over exactly the incidents whose [resolvedAt] is set and not
    before midnight of the current day: the integer nearest to the mean,
    halves rounded up.  It is 0 when no incident was resolved today.  (The
    quotient is taken exactly, not in floating point.) *)
Theorem daily_average_is_rounded_mean setHours0 now mgr :
  let today := setHours0 now in
  let mean := mean_resolution_minutes today (getAllIncidents mgr) in
  let avg := avgResolutionTimeToday (generateDailyMetrics setHours0 now mgr) in
  avg = Math_round mean
  /\ (inject_Z avg - (1 # 2) <= mean /\ mean < inject_Z avg + (1 # 2))%Q
  /\ (filter (resolved_today today) (getAllIncidents mgr) = [] -> avg = 0%Z).
Proof.
  intros today mean avg.
  assert (avg = Math_round mean) as E.
  { subst avg mean. unfold generateDailyMetrics, mean_resolution_minutes.
    cbn [avgResolutionTimeToday]. fold today.
    rewrite (filter_bool_prop _ (resolved_today today) _ (resolved_since_test today)).
    destruct (filter (resolved_today today) (getAllIncidents mgr)) as [|i rs] eqn:Ers;
      [done|].
    cbn [length Nat.ltb Nat.leb]. apply Math_round_proper.
    set (l := i :: rs). 
    assert (~ inject_Z (Z.of_nat (length l)) == 0)%Q as Hlen.
    { unfold Qeq. cbn. lia. }
    assert (Qsum (map resolution_minutes l)
            == inject_Z (fold_left add_resolution_ms l 0%Z) / inject_Z 60000)%Q as ->
      by (rewrite fold_resolution_minutes; field).
    change (1000 * 60)%Z with 60000%Z. field. exact Hlen. }
  split; [exact E|]. split.
  - rewrite E. apply Math_round_nearest.
  - intros Hnone. rewrite E. subst mean. unfold mean_resolution_minutes.
    by rewrite Hnone.
Qed.

Lemma daily_average_is_rounded_mean_witness :
  avgResolutionTimeToday
    (generateDailyMetrics setHours0_utc (demo_clock 0) (manager initial_world)) = 0%Z.
Proof.
  apply (daily_average_is_rounded_mean setHours0_utc (demo_clock 0)
           (manager initial_world)).
  vm_compute. reflexivity.
Defined.

(** * Further properties of the code *)

(** ** Every call, spelled out *)

Section StepCases.
Variable clock : nat -> Z.
Variable mathRandom : nat -> string.

(** A call either fails and leaves the world as it was, or writes one
    incident to one slot. *)
Lemma step_cases op w :
  ((step clock mathRandom op w).1 = Returned false
   /\ (step clock mathRandom op w).2 = w)
  \/ exists i inc',
       step_write clock mathRandom w op i inc'
       /\ (step clock mathRandom op w).2 = world_after w op i inc'
       /\ (step clock mathRandom op w).1
          = match op with OpCreate _ => CreatedId i | _ => Returned true end.
Proof.
  destruct op as [request|i a|i s u|i msg u]; cbn [step op_reads].
  - right. eexists _, _. split; [constructor|]. by unfold_m.
  - destruct (getIncident (manager w) i) as [inc|] eqn:G.
    + right. eexists _, _. split; [by constructor|].
      unfold getIncident in G. unfold_m. by rewrite G.
    + left. unfold getIncident in G. unfold_m. by rewrite G.
  - destruct (getIncident (manager w) i) as [inc|] eqn:G.
    + right. eexists _, _. split; [by constructor|].
      unfold getIncident in G. unfold_m. rewrite G. by destruct s.
    + left. unfold getIncident in G. unfold_m. by rewrite G.
  - destruct (getIncident (manager w) i) as [inc|] eqn:G.
    + right. eexists _, _. split; [by constructor|].
      unfold getIncident in G. unfold_m. by rewrite G.
    + left. unfold getIncident in G. unfold_m. by rewrite G.
Qed.

Lemma getIncident_world_after w op i inc' k :
  getIncident (manager (world_after w op i inc')) k
  = if decide (k = i) then Some inc' else getIncident (manager w) k.
Proof.
  unfold getIncident. cbn. case_decide as E.
  - subst. apply map_get_set_eq.
  - by apply map_get_set_ne.
Qed.

(** A property of the stored incidents that every written incident has,
    given that the incidents stored before have it, holds after any
    sequence of calls. *)
Lemma run_preserves (Q : World -> string -> Incident -> Prop) :
  (forall w i inc' op k inc,
      (forall k inc, getIncident (manager w) k = Some inc -> Q w k inc) ->
      step_write clock mathRandom w op i inc' ->
      k ≠ i -> getIncident (manager w) k = Some inc ->
      Q (world_after w op i inc') k inc) ->
  (forall w i inc' op,
      (forall k inc, getIncident (manager w) k = Some inc -> Q w k inc) ->
      step_write clock mathRandom w op i inc' ->
      Q (world_after w op i inc') i inc') ->
  forall ops w,
    (forall k inc, getIncident (manager w) k = Some inc -> Q w k inc) ->
    forall k inc,
      getIncident (manager (run clock mathRandom ops w)) k = Some inc ->
      Q (run clock mathRandom ops w) k inc.
Proof.
  intros Hother Hwritten. induction ops as [|op ops IH]; intros w Hw; [done|].
  cbn [run]. apply IH. clear IH.
  destruct (step_cases op w) as [[_ ->]|(i & inc' & Hwr & -> & _)]; [done|].
  intros k inc. rewrite getIncident_world_after. case_decide as E.
  - intros [= <-]. subst k. by apply Hwritten.
  - intros G. by eapply Hother.
Qed.
End StepCases.

(** ** Generated ids *)

Lemma string_map_app f s t :
  string_map f (s +:+ t) = string_map f s +:+ string_map f t.
Proof. induction s as [|c s IH]; [done|]. simpl. by rewrite IH. Qed.

Lemma digit36_upper_value d :
  (0 <= d < 36)%Z ->
  Ascii.eqb (upper_ascii (digit36 d)) "-" = false
  /\ digit_value (upper_ascii (digit36 d)) = d.
Proof.
  intros Hd. assert (exists k, (k < 36)%nat /\ d = Z.of_nat k) as (k & Hk & ->).
  { exists (Z.to_nat d). lia. }
  do 36 (destruct k as [|k]; [by vm_compute|]). lia.
Qed.

Lemma parse36_cons m c s :
  parse36 m (String c s)
  = if Ascii.eqb c "-" then m else parse36 (36 * m + digit_value c)%Z s.
Proof. reflexivity. Qed.

Lemma toUpperCase_cons c s :
  toUpperCase (String c s) = String (upper_ascii c) (toUpperCase s).
Proof. reflexivity. Qed.

Lemma append_cons c s t : String c s +:+ t = String c (s +:+ t).
Proof. reflexivity. Qed.

Lemma parse36_digits fuel : forall n acc rest,
  (0 <= n < 36 ^ Z.of_nat fuel)%Z ->
  parse36 0 (toUpperCase (toString36_digits fuel n acc) +:+ rest)
  = parse36 n (toUpperCase acc +:+ rest).
Proof.
  induction fuel as [|fuel IH]; intros n acc rest Hn.
  - cbn in Hn. assert (n = 0%Z) as -> by lia. done.
  - cbn [toString36_digits].
    assert (0 <= n mod 36 < 36)%Z as Hd by (apply Z.mod_pos_bound; lia).
    destruct (digit36_upper_value _ Hd) as [Hdash Hval].
    assert (forall m,
      parse36 m (toUpperCase (String (digit36 (n mod 36)) acc) +:+ rest)
      = parse36 (36 * m + n mod 36) (toUpperCase acc +:+ rest)) as Hcons.
    { intros m. by rewrite toUpperCase_cons, append_cons, parse36_cons, Hdash, Hval. }
    destruct (n / 36 =? 0)%Z eqn:E.
    + apply Z.eqb_eq in E. rewrite Hcons. f_equal.
      pose proof (Z.div_mod n 36). lia.
    + apply Z.eqb_neq in E. rewrite IH, Hcons.
      * f_equal. pose proof (Z.div_mod n 36). lia.
      * split; [apply Z.div_pos; lia|].
        apply Z.div_lt_upper_bound; [lia|].
        replace (Z.of_nat (S fuel)) with (Z.succ (Z.of_nat fuel)) in Hn by lia.
        rewrite Z.pow_succ_r in Hn; lia.
Qed.

Lemma parse36_toString36 n rest :
  (0 <= n)%Z ->
  parse36 0 (toUpperCase (toString36 n) +:+ "-" +:+ rest) = n.
Proof.
  intros Hn. unfold toString36.
  destruct (n <? 0)%Z eqn:E; [apply Z.ltb_lt in E; lia|].
  rewrite parse36_digits; [done|].
  split; [done|].
  rewrite Nat2Z.inj_succ, Z2Nat.id by apply Z.log2_nonneg.
  destruct (decide (n = 0%Z)) as [->|Hpos]; [done|].
  pose proof (Z.log2_spec n ltac:(lia)) as [_ Hlt].
  eapply Z.lt_le_trans; [exact Hlt|].
  apply Z.pow_le_mono_l. split; [lia|lia].
Qed.

Lemma id_timestamp_incidentId_at clock mathRandom n r :
  (0 <= clock n)%Z ->
  id_timestamp (incidentId_at clock mathRandom n r) = clock n.
Proof.
  intros Hn. unfold incidentId_at, toUpperCase.
  rewrite !string_map_app. change (string_map upper_ascii "INC-") with "INC-".
  cbn [append id_timestamp]. by apply parse36_toString36.
Qed.

Lemma id_timestamp_eventId_at clock mathRandom n r :
  (0 <= clock n)%Z ->
  id_timestamp (eventId_at clock mathRandom n r) = clock n.
Proof.
  intros Hn. unfold eventId_at, toUpperCase.
  rewrite !string_map_app. change (string_map upper_ascii "EVT-") with "EVT-".
  cbn [append id_timestamp]. by apply parse36_toString36.
Qed.

(** X1.  The clock reading an id was made from can be read back from the
    id, for incident ids and for event ids, whatever the random draw; so ids
    made at different readings of the clock differ. *)
Theorem id_timestamp_roundtrip clock mathRandom n r :
  (0 <= clock n)%Z ->
  id_timestamp (incidentId_at clock mathRandom n r) = clock n
  /\ id_timestamp (eventId_at clock mathRandom n r) = clock n
  /\ (forall n' r', (0 <= clock n')%Z ->
        incidentId_at clock mathRandom n r = incidentId_at clock mathRandom n' r' ->
        clock n = clock n').
Proof.
  intros Hn. split; [by apply id_timestamp_incidentId_at|].
  split; [by apply id_timestamp_eventId_at|].
  intros n' r' Hn' E.
  by rewrite <- (id_timestamp_incidentId_at clock mathRandom n r),
             <- (id_timestamp_incidentId_at clock mathRandom n' r'), E.
Qed.

Lemma id_timestamp_roundtrip_witness :
  id_timestamp demo_id = demo_clock 0.
Proof.
  apply (id_timestamp_roundtrip demo_clock demo_random 0 0).
  vm_compute. discriminate.
Defined.

(** X2.  An incident id starts with [INC-] and an event id with [EVT-], and
    both are unchanged by [toUpperCase]; no incident id is an event id. *)
Theorem ids_are_prefixed_and_upper_case clock mathRandom n r n' r' :
  (exists rest, incidentId_at clock mathRandom n r = "INC-" +:+ rest)
  /\ (exists rest, eventId_at clock mathRandom n r = "EVT-" +:+ rest)
  /\ toUpperCase (incidentId_at clock mathRandom n r)
     = incidentId_at clock mathRandom n r
  /\ toUpperCase (eventId_at clock mathRandom n r) = eventId_at clock mathRandom n r
  /\ incidentId_at clock mathRandom n r ≠ eventId_at clock mathRandom n' r'.
Proof.
  assert (forall c, upper_ascii (upper_ascii c) = upper_ascii c) as Hidem.
  { by intros [[] [] [] [] [] [] [] []]; vm_compute. }
  assert (forall s, toUpperCase (toUpperCase s) = toUpperCase s) as Hidem_s.
  { induction s as [|c s IH]; [done|].
    by rewrite !toUpperCase_cons, Hidem, IH. }
  unfold incidentId_at, eventId_at. rewrite !Hidem_s.
  unfold toUpperCase. rewrite !string_map_app.
  change (string_map upper_ascii "INC-") with "INC-".
  change (string_map upper_ascii "EVT-") with "EVT-".
  split; [by eexists|]. split; [by eexists|]. split; [done|]. split; [done|].
  intros E. simpl in E. discriminate E.
Qed.

(** ** The table of incidents *)

Lemma map_get_None {V} (k : string) (m : list (string * V)) :
  map_get k m = None <-> k ∉ map fst m.
Proof.
  induction m as [|[k' v] m IH]; cbn.
  - split; [intros _; apply not_elem_of_nil|done].
  - rewrite not_elem_of_cons. destruct (String.eqb k' k) eqn:E.
    + apply String.eqb_eq in E. subst. split; [done|]. by intros [? _].
    + apply String.eqb_neq in E. rewrite IH. split; [by intros ?|by intros [_ ?]].
Qed.

Lemma map_set_keys {V} (k : string) (v : V) (m : list (string * V)) :
  map fst (map_set k v m)
  = match map_get k m with
    | Some _ => map fst m
    | None => map fst m ++ [k]
    end.
Proof.
  induction m as [|[k' v'] m IH]; cbn; [done|].
  destruct (String.eqb k' k) eqn:E; cbn.
  - apply String.eqb_eq in E. by subst.
  - rewrite IH. by destruct (map_get k m).
Qed.

Lemma map_get_elem {V} (k : string) (v : V) (m : list (string * V)) :
  NoDup (map fst m) -> (k, v) ∈ m -> map_get k m = Some v.
Proof.
  induction m as [|[k' v'] m IH]; cbn; intros Hnd Hin.
  - by apply elem_of_nil in Hin.
  - apply NoDup_cons in Hnd as [Hk' Hnd].
    apply elem_of_cons in Hin as [[= -> ->]|Hin].
    + by rewrite String.eqb_refl.
    + destruct (String.eqb k' k) eqn:E; [|by apply IH].
      apply String.eqb_eq in E. subst k'. exfalso. apply Hk'.
      apply list_elem_of_fmap. by exists (k, v).
Qed.

Lemma map_get_values {V} (k : string) (v : V) (m : list (string * V)) :
  map_get k m = Some v -> v ∈ map_values m.
Proof.
  unfold map_values. induction m as [|[k' v'] m IH]; cbn; [done|].
  destruct (String.eqb k' k).
  - intros [= ->]. apply elem_of_cons. by left.
  - intros H. apply elem_of_cons. right. by apply IH.
Qed.

Lemma map_get_pair {V} (k : string) (v : V) (m : list (string * V)) :
  map_get k m = Some v -> (k, v) ∈ m.
Proof.
  induction m as [|[k' v'] m IH]; cbn; [done|].
  destruct (String.eqb k' k) eqn:E.
  - apply String.eqb_eq in E. subst. intros [= ->]. apply elem_of_cons. by left.
  - intros H. apply elem_of_cons. right. by apply IH.
Qed.

Section Table.
Variable clock : nat -> Z.
Variable mathRandom : nat -> string.

Lemma run_world_invariant (P : World -> Prop) :
  (forall op w, P w -> P (step clock mathRandom op w).2) ->
  forall ops w, P w -> P (run clock mathRandom ops w).
Proof.
  intros Hstep. induction ops as [|op ops IH]; intros w Hw; [done|].
  cbn [run]. by apply IH, Hstep.
Qed.

Lemma step_keys op w :
  let keys w := map fst (incidents (manager w)) in
  keys (step clock mathRandom op w).2 = keys w
  \/ exists i, (i ∉ keys w) /\ keys (step clock mathRandom op w).2 = keys w ++ [i].
Proof.
  cbv zeta.
  destruct (step_cases clock mathRandom op w) as [[_ ->]|(i & inc' & _ & -> & _)];
    [by left|].
  cbn. rewrite map_set_keys.
  destruct (map_get i (incidents (manager w))) eqn:G; [by left|].
  right. exists i. split; [by apply map_get_None|done].
Qed.

Lemma run_keys_NoDup ops :
  NoDup (map fst (incidents (manager (run clock mathRandom ops initial_world)))).
Proof.
  apply (run_world_invariant (fun w => NoDup (map fst (incidents (manager w))))).
  - intros op w Hw. destruct (step_keys op w) as [->|(i & Hi & ->)]; [done|].
    apply NoDup_app. split; [done|]. split; [|apply NoDup_singleton].
    intros x Hx ->%list_elem_of_singleton. done.
  - apply NoDup_nil_2.
Qed.

Lemma created_ids_cons op ops w :
  created_ids clock mathRandom (op :: ops) w
  = match (step clock mathRandom op w).1 with
    | CreatedId i => [i]
    | Returned _ => []
    end ++ created_ids clock mathRandom ops (step clock mathRandom op w).2.
Proof.
  cbn [created_ids]. by destruct (step clock mathRandom op w) as [[i|b] w'].
Qed.




Lemma step_write_well_formed w op i inc' :
  (forall k inc, getIncident (manager w) k = Some inc -> well_formed k inc) ->
  step_write clock mathRandom w op i inc' -> well_formed i inc'.
Proof.
  intros Hw Hwr. unfold well_formed.
  destruct Hwr as [request|i a inc G|i s u inc G|i msg u inc G].
  - cbn. split; [done|]. split; [by repeat constructor|].
    eexists _, []. by repeat split.
  - destruct (Hw _ _ G) as (Hid & Hback & e & rest & Htl & He).
    cbn. rewrite Htl in *. split; [done|].
    split; [apply Forall_app; split; [done|by repeat constructor]|].
    eexists e, (rest ++ [_]). split; [done|].
    destruct He as (? & ? & ? & Hrest). repeat split; try done.
    apply Forall_app. split; [done|]. by repeat constructor.
  - destruct (Hw _ _ G) as (Hid & Hback & e & rest & Htl & He).
    assert (forall x, timeline (match s with
                       | S_resolved => set_resolvedAt x (set_updatedAt (clock (dateCalls w)) (set_status s inc))
                       | S_closed => set_closedAt x (set_updatedAt (clock (dateCalls w)) (set_status s inc))
                       | _ => set_updatedAt (clock (dateCalls w)) (set_status s inc)
                       end) = timeline inc) as Etl by by destruct s.
    cbn. rewrite Etl, Htl in *. split; [by destruct s|].
    split; [apply Forall_app; split; [done|by repeat constructor]|].
    eexists e, (rest ++ [_]). split; [done|].
    destruct He as (? & ? & ? & Hrest). repeat split; try by destruct s.
    apply Forall_app. split; [done|]. by repeat constructor.
  - destruct (Hw _ _ G) as (Hid & Hback & e & rest & Htl & He).
    cbn. rewrite Htl in *. split; [done|].
    split; [apply Forall_app; split; [done|by repeat constructor]|].
    eexists e, (rest ++ [_]). split; [done|].
    destruct He as (? & ? & ? & Hrest). repeat split; try done.
    apply Forall_app. split; [done|]. by repeat constructor.
Qed.

Lemma run_well_formed ops k inc :
  getIncident (manager (run clock mathRandom ops initial_world)) k = Some inc ->
  well_formed k inc.
Proof.
  revert k inc. apply (run_preserves clock mathRandom (fun _ => well_formed)).
  - intros w i inc' op k inc Hw _ _ G. by apply Hw.
  - intros w i inc' op Hw Hwr. by eapply step_write_well_formed.
  - intros k inc G. discriminate G.
Qed.

Lemma run_listed ops :
  let mgr := manager (run clock mathRandom ops initial_world) in
  map id (getAllIncidents mgr) = map fst (incidents mgr)
  /\ forall inc, inc ∈ getAllIncidents mgr -> getIncident mgr (id inc) = Some inc.
Proof.
  cbv zeta. pose proof (run_keys_NoDup ops) as Hnd.
  pose proof (run_well_formed ops) as Hwf. unfold getIncident in Hwf.
  set (m := incidents (manager (run clock mathRandom ops initial_world))) in *.
  assert (forall k inc, (k, inc) ∈ m -> id inc = k) as Hkey.
  { intros k inc Hin. by apply (Hwf k inc), map_get_elem. }
  unfold getAllIncidents, map_values, getIncident. fold m. split.
  - rewrite map_map. apply map_ext_in. intros [k inc] Hin.
    apply list_elem_of_In in Hin. cbn. by apply Hkey.
  - intros inc Hin. apply list_elem_of_fmap in Hin as ([k inc0] & -> & Hin).
    cbn. rewrite (Hkey _ _ Hin). by apply map_get_elem.
Qed.

(** X4.  After any sequence of calls on a new manager, an incident found
    under an id carries that id, every event of its timeline points back to
    it, and the timeline opens with the only [created] event, stamped with
    [createdAt] and recording the severity.  The ids of [getAllIncidents]
    are pairwise distinct and each listed incident is the one [getIncident]
    returns for its id. *)
Theorem stored_incidents_are_well_formed ops :
  let mgr := manager (run clock mathRandom ops initial_world) in
  (forall k inc, getIncident mgr k = Some inc -> well_formed k inc)
  /\ NoDup (map id (getAllIncidents mgr))
  /\ forall inc, inc ∈ getAllIncidents mgr -> getIncident mgr (id inc) = Some inc.
Proof.
  cbv zeta. destruct (run_listed ops) as [Hids Hlook].
  split; [apply run_well_formed|]. split; [|exact Hlook].
  rewrite Hids. apply run_keys_NoDup.
Qed.

Lemma replay_status_snoc tl e :
  replay_status (tl ++ [e])
  = match ev_metadata e with
    | Some (MetaStatus _ new) => new
    | _ => replay_status tl
    end.
Proof. unfold replay_status. by rewrite fold_left_app. Qed.

Lemma audit_chain_snoc tl e :
  (forall before e0 after old new,
     tl = before ++ e0 :: after ->
     ev_metadata e0 = Some (MetaStatus old new) -> old = replay_status before) ->
  (forall old new, ev_metadata e = Some (MetaStatus old new) ->
     old = replay_status tl) ->
  forall before e0 after old new,
    tl ++ [e] = before ++ e0 :: after ->
    ev_metadata e0 = Some (MetaStatus old new) -> old = replay_status before.
Proof.
  intros Htl He before e0 after old new E Hmeta.
  destruct after as [|x after _] using rev_ind.
  - apply app_inj_tail in E as [-> ->]. eauto.
  - rewrite app_comm_cons, app_assoc in E. apply app_inj_tail in E as [-> ->].
    eauto.
Qed.

Lemma step_write_audited w op i inc' :
  (forall k inc, getIncident (manager w) k = Some inc -> audited inc) ->
  step_write clock mathRandom w op i inc' -> audited inc'.
Proof.
  intros Hw Hwr. unfold audited.
  destruct Hwr as [request|i a inc G|i s u inc G|i msg u inc G].
  - cbn. split; [done|]. split; [|done].
    intros [|x before] e after old new E Hmeta; cbn in E.
    + injection E as <- _. discriminate Hmeta.
    + injection E as _ E. by destruct before.
  - destruct (Hw _ _ G) as (Hst & Hchain & Hr & Hc).
    unfold after_assign, after_comment.
    cbn [timeline timeline_push status set_updatedAt set_assignee resolvedAt closedAt].
    rewrite replay_status_snoc. cbn [ev_metadata]. split; [done|].
    split; [|done]. apply audit_chain_snoc; [done|]. by intros old new [=].
  - destruct (Hw _ _ G) as (Hst & Hchain & Hr & Hc).
    assert (timeline (after_status clock mathRandom i s u (dateCalls w)
                        (randomCalls w) inc)
            = timeline inc ++ [{| ev_id := eventId_at clock mathRandom
                                            (1 + extra_reads s + dateCalls w)
                                            (randomCalls w);
                                  ev_incidentId := i;
                                  ev_type := T_status_changed;
                                  ev_message :=
                                    "Status changed from " +:+ status_str (status inc)
                                      +:+ " to " +:+ status_str s;
                                  ev_userId := u;
                                  ev_timestamp :=
                                    clock (2 + extra_reads s + dateCalls w);
                                  ev_metadata := Some (MetaStatus (status inc) s) |}])
      as Etl by by destruct s.
    rewrite Etl, replay_status_snoc. cbn [ev_metadata].
    split; [by destruct s|]. split.
    + apply audit_chain_snoc; [done|]. intros old new [= <- <-]. done.
    + destruct s; cbn; split; try done; by eexists.
  - destruct (Hw _ _ G) as (Hst & Hchain & Hr & Hc).
    unfold after_assign, after_comment.
    cbn [timeline timeline_push status set_updatedAt set_assignee resolvedAt closedAt].
    rewrite replay_status_snoc. cbn [ev_metadata]. split; [done|].
    split; [|done]. apply audit_chain_snoc; [done|]. by intros old new [=].
Qed.

(** X5.  After any sequence of calls on a new manager, the status of a
    stored incident is the one its timeline replays to (open, then each
    recorded status change in order); every status-change event records as
    old status the status replayed up to it; and an incident whose status is
    resolved (closed) has [resolvedAt] ([closedAt]) set. *)
Theorem status_agrees_with_timeline ops k inc :
  getIncident (manager (run clock mathRandom ops initial_world)) k = Some inc ->
  audited inc.
Proof.
  revert k inc.
  apply (run_preserves clock mathRandom (fun _ _ => audited)).
  - intros w i inc' op k inc Hw _ _ G. by eapply Hw.
  - intros w i inc' op Hw Hwr. eapply step_write_audited; [|exact Hwr].
    intros k inc G. by eapply Hw.
  - intros k inc G. discriminate G.
Qed.

Section MonotoneTimes.
Hypothesis clock_step : forall n, (clock n <= clock (S n))%Z.

Lemma step_write_times w op i inc' :
  (forall k inc, getIncident (manager w) k = Some inc ->
                 times_ordered clock (dateCalls w) inc) ->
  step_write clock mathRandom w op i inc' ->
  times_ordered clock (op_reads op + dateCalls w) inc'.
Proof using clock_step.
  intros Hw Hwr. unfold times_ordered.
  pose proof (clock_mono clock clock_step) as Hmono.
  destruct Hwr as [request|i a inc G|i s u inc G|i msg u inc G].
  - cbn -[Nat.add]. pose proof (Hmono (1 + dateCalls w)%nat (3 + dateCalls w)%nat).
    repeat split; try done; try lia. apply Forall_singleton. cbn -[Nat.add]. lia.
  - destruct (Hw _ _ G) as (Hcu & Hu & Hr & Hc & Hev). cbn -[Nat.add].
    pose proof (Hmono (dateCalls w) (3 + dateCalls w)%nat).
    pose proof (Hmono (dateCalls w) (2 + dateCalls w)%nat).
    pose proof (Hmono (2 + dateCalls w)%nat (3 + dateCalls w)%nat).
    split; [lia|]. split; [lia|].
    split; [intros r Er; specialize (Hr r Er); lia|].
    split; [intros c Ec; specialize (Hc c Ec); lia|].
    apply Forall_app. split.
    + eapply Forall_impl; [exact Hev|]. cbn -[Nat.add]. intros; lia.
    + apply Forall_singleton. cbn -[Nat.add]. lia.
  - destruct (Hw _ _ G) as (Hcu & Hu & Hr & Hc & Hev).
    pose proof (Hmono (dateCalls w) (1 + dateCalls w)%nat).
    pose proof (Hmono (dateCalls w) (op_reads (OpUpdateStatus i s u) + dateCalls w)%nat).
    pose proof (Hmono (1 + dateCalls w)%nat
                  (op_reads (OpUpdateStatus i s u) + dateCalls w)%nat).
    pose proof (Hmono (dateCalls w) (2 + extra_reads s + dateCalls w)%nat).
    pose proof (Hmono (2 + extra_reads s + dateCalls w)%nat
                  (op_reads (OpUpdateStatus i s u) + dateCalls w)%nat).
    pose proof (Hmono (dateCalls w) (S (dateCalls w))).
    pose proof (Hmono (S (dateCalls w))
                  (op_reads (OpUpdateStatus i s u) + dateCalls w)%nat).
    cbn [op_reads] in *.
    destruct s; cbn -[Nat.add] in *.
    all: split; [lia|]; split; [lia|].
    all: split; [intros r Er; try (injection Er as <-); try specialize (Hr r Er); lia|].
    all: split; [intros c Ec; try (injection Ec as <-); try specialize (Hc c Ec); lia|].
    all: apply Forall_app; split;
      [eapply Forall_impl; [exact Hev|]; cbn -[Nat.add]; intros; lia
      |apply Forall_singleton; cbn -[Nat.add]; lia].
  - destruct (Hw _ _ G) as (Hcu & Hu & Hr & Hc & Hev). cbn -[Nat.add].
    pose proof (Hmono (dateCalls w) (3 + dateCalls w)%nat).
    pose proof (Hmono (dateCalls w) (2 + dateCalls w)%nat).
    pose proof (Hmono (dateCalls w) (1 + dateCalls w)%nat).
    pose proof (Hmono (1 + dateCalls w)%nat (3 + dateCalls w)%nat).
    pose proof (Hmono (2 + dateCalls w)%nat (3 + dateCalls w)%nat).
    split; [lia|]. split; [lia|].
    split; [intros r Er; specialize (Hr r Er); lia|].
    split; [intros c Ec; specialize (Hc c Ec); lia|].
    apply Forall_app. split.
    + eapply Forall_impl; [exact Hev|]. cbn -[Nat.add]. intros; lia.
    + apply Forall_singleton. cbn -[Nat.add]. lia.
Qed.

Lemma times_ordered_later n m inc :
  (n <= m)%nat -> times_ordered clock n inc -> times_ordered clock m inc.
Proof using clock_step.
  intros Hnm (Hcu & Hu & Hr & Hc & Hev).
  pose proof (clock_mono clock clock_step n m Hnm).
  split; [done|]. split; [lia|].
  split; [intros r Er; specialize (Hr r Er); lia|].
  split; [intros c Ec; specialize (Hc c Ec); lia|].
  eapply Forall_impl; [exact Hev|]. cbn. intros; lia.
Qed.

Lemma run_times_ordered ops k inc :
  getIncident (manager (run clock mathRandom ops initial_world)) k = Some inc ->
  times_ordered clock (dateCalls (run clock mathRandom ops initial_world)) inc.
Proof using clock_step.
  revert k inc.
  apply (run_preserves clock mathRandom
           (fun w _ inc => times_ordered clock (dateCalls w) inc)).
  - intros w i inc' op k inc Hw _ _ G. cbn.
    apply (times_ordered_later (dateCalls w)); [lia|]. by eapply Hw.
  - intros w i inc' op Hw Hwr. cbn. eapply step_write_times; [|exact Hwr]. done.
  - intros k inc G. discriminate G.
Qed.

(** X6.  When the clock never goes backwards then, after any sequence of
    calls on a new manager, a stored incident has [createdAt <= updatedAt],
    its [resolvedAt] and [closedAt], when set, are not before [createdAt],
    no event of its timeline is stamped before [createdAt], and none of
    these times is later than the next reading of the clock. *)
Theorem incident_times_are_ordered ops k inc :
  getIncident (manager (run clock mathRandom ops initial_world)) k = Some inc ->
  times_ordered clock (dateCalls (run clock mathRandom ops initial_world)) inc.
Proof using clock_step. apply run_times_ordered. Qed.

End MonotoneTimes.

Lemma add_keys_length ids : forall ks,
  NoDup ks ->
  (length (add_keys ks ids) <= length ks + length ids)%nat
  /\ (length (add_keys ks ids) = (length ks + length ids)%nat
      <-> NoDup (ks ++ ids)).
Proof.
  induction ids as [|i ids IH]; intros ks Hks.
  - cbn. rewrite app_nil_r. split; [lia|]. split; [done|lia].
  - unfold add_keys. cbn [fold_left length]. fold (add_keys (add_key ks i) ids).
    unfold add_key. case_decide as Hi.
    + destruct (IH ks Hks) as [Hle _]. split; [lia|]. split; [lia|].
      intros Hnd. apply NoDup_app in Hnd as (_ & Hdis & _).
      exfalso. apply (Hdis i Hi). apply elem_of_cons. by left.
    + assert (NoDup (ks ++ [i])) as Hks'.
      { apply NoDup_app. split; [done|]. split; [|apply NoDup_singleton].
        by intros x Hx ->%list_elem_of_singleton. }
      destruct (IH _ Hks') as [Hle Hiff]. rewrite length_app in *. cbn in *.
      split; [lia|].
      rewrite <- (assoc_L (++)) in Hiff. cbn in Hiff. rewrite <- Hiff. lia.
Qed.

Lemma add_keys_fresh ids : forall ks,
  NoDup (ks ++ ids) -> add_keys ks ids = ks ++ ids.
Proof.
  induction ids as [|i ids IH]; intros ks Hnd; [by rewrite app_nil_r|].
  unfold add_keys. cbn [fold_left]. fold (add_keys (add_key ks i) ids).
  unfold add_key. case_decide as Hi.
  - apply NoDup_app in Hnd as (_ & Hdis & _).
    exfalso. apply (Hdis i Hi). apply elem_of_cons. by left.
  - rewrite IH; [by rewrite <- (assoc_L (++))|].
    by rewrite <- (assoc_L (++)).
Qed.

Lemma run_keys ops : forall w,
  map fst (incidents (manager (run clock mathRandom ops w)))
  = add_keys (map fst (incidents (manager w))) (created_ids clock mathRandom ops w).
Proof.
  induction ops as [|op ops IH]; intros w; [done|].
  cbn [run]. rewrite IH, created_ids_cons.
  destruct (step_cases clock mathRandom op w)
    as [[Hout ->]|(i & inc' & Hwr & -> & Hout)]; rewrite Hout; [done|].
  cbn [world_after manager incidents]. rewrite map_set_keys.
  destruct Hwr as [request|i a inc G|i s u inc G|i msg u inc G].
  - cbn [app]. unfold add_keys at 2. cbn [fold_left].
    fold (add_keys
            (add_key (map fst (incidents (manager w)))
               (incidentId_at clock mathRandom (dateCalls w) (randomCalls w)))
            (created_ids clock mathRandom ops
               (world_after w (OpCreate request)
                  (incidentId_at clock mathRandom (dateCalls w) (randomCalls w))
                  (new_incident clock mathRandom request (dateCalls w)
                     (randomCalls w))))).
    f_equal. unfold add_key.
    destruct (map_get _ (incidents (manager w))) eqn:G.
    + rewrite decide_True; [done|].
      destruct (decide (incidentId_at clock mathRandom (dateCalls w) (randomCalls w)
                        ∈ map fst (incidents (manager w)))) as [|Hn]; [done|].
      apply map_get_None in Hn. congruence.
    + rewrite decide_False; [done|]. by apply map_get_None.
  - unfold getIncident in G. by rewrite G.
  - unfold getIncident in G. by rewrite G.
  - unfold getIncident in G. by rewrite G.
Qed.

Lemma created_ids_length ops : forall w,
  length (created_ids clock mathRandom ops w) = count_creates ops.
Proof.
  induction ops as [|op ops IH]; intros w; [done|].
  rewrite created_ids_cons, length_app, IH.
  destruct (step_cases clock mathRandom op w)
    as [[Hout _]|(i & inc' & _ & _ & Hout)]; rewrite Hout.
  - destruct op; [|done..].
    cbn in Hout. unfold mbind, M_bind, mret, M_ret in Hout.
    destruct (createIncident clock mathRandom request w). discriminate Hout.
  - by destruct op.
Qed.

(** X7.  After any sequence of calls on a new manager, [getAllIncidents]
    lists the generated ids, each once, in the order they were first
    generated.  So the store never holds more incidents than there were
    [createIncident] calls; it holds one incident per call exactly when the
    ids those calls generated are pairwise distinct, and then it lists them
    in call order.  When two calls generate the same id, the later incident
    takes the place of the earlier one. *)
Theorem one_incident_per_generated_id ops :
  let mgr := manager (run clock mathRandom ops initial_world) in
  let ids := created_ids clock mathRandom ops initial_world in
  length ids = count_creates ops
  /\ map id (getAllIncidents mgr) = add_keys [] ids
  /\ (length (getAllIncidents mgr) <= count_creates ops)%nat
  /\ (length (getAllIncidents mgr) = count_creates ops <-> NoDup ids)
  /\ (NoDup ids -> map id (getAllIncidents mgr) = ids).
Proof.
  cbv zeta. destruct (run_listed ops) as [Hids _].
  pose proof (run_keys ops initial_world) as Hkeys.
  change (map fst (incidents (manager initial_world))) with (@nil string) in Hkeys.
  rewrite <- Hids in Hkeys.
  pose proof (add_keys_length (created_ids clock mathRandom ops initial_world) []
                (NoDup_nil_2)) as [Hle Hiff].
  rewrite <- Hkeys, length_map, created_ids_length in Hle, Hiff. cbn in Hle, Hiff.
  split; [apply created_ids_length|]. split; [done|]. split; [done|].
  split; [done|].
  intros Hnd. rewrite Hkeys. by apply add_keys_fresh.
Qed.

End Table.

Lemma incident_times_are_ordered_witness :
  let ops := [OpCreate demo_request; OpAssign demo_id "U1";
              OpUpdateStatus demo_id S_resolved None] in
  exists inc,
    getIncident (manager (run demo_clock demo_random ops initial_world)) demo_id
      = Some inc
    /\ (createdAt inc <= updatedAt inc)%Z.
Proof.
  intros ops. eexists. split; [vm_compute; reflexivity|].
  refine (proj1 (incident_times_are_ordered demo_clock demo_random _ ops demo_id _ _)).
  - intros n. unfold demo_clock. lia.
  - vm_compute. reflexivity.
Defined.

Lemma status_agrees_with_timeline_witness :
  let ops := [OpCreate demo_request; OpUpdateStatus demo_id S_investigating None;
              OpUpdateStatus demo_id S_resolved None] in
  exists inc,
    getIncident (manager (run demo_clock demo_random ops initial_world)) demo_id
      = Some inc
    /\ status inc = replay_status (timeline inc).
Proof.
  intros ops. eexists. split; [vm_compute; reflexivity|].
  apply (status_agrees_with_timeline demo_clock demo_random ops demo_id).
  vm_compute. reflexivity.
Defined.

Lemma one_incident_per_generated_id_witness :
  let ops := [OpCreate demo_request; OpComment demo_id "ack" "U1";
              OpCreate untitled_request] in
  map id (getAllIncidents (manager (run demo_clock demo_random ops initial_world)))
  = created_ids demo_clock demo_random ops initial_world.
Proof.
  intros ops.
  apply (one_incident_per_generated_id demo_clock demo_random ops).
  apply (bool_decide_unpack _). vm_compute. exact I.
Defined.

(** Two creations in the same millisecond that draw the same random suffix
    generate the same id: the second replaces the first. *)
Example same_id_overwrites :
  let ops := [OpCreate demo_request; OpCreate untitled_request] in
  let mgr := manager (run frozen_clock demo_random ops initial_world) in
  created_ids frozen_clock demo_random ops initial_world = [demo_id; demo_id]
  /\ title <$> getAllIncidents mgr = [""].
Proof. split; vm_compute; reflexivity. Qed.

Lemma stored_incidents_are_well_formed_witness :
  let ops := [OpCreate demo_request; OpComment demo_id "ack" "U1"] in
  exists inc,
    getIncident (manager (run demo_clock demo_random ops initial_world)) demo_id
      = Some inc
    /\ id inc = demo_id.
Proof.
  intros ops. eexists. split; [vm_compute; reflexivity|].
  refine (proj1 (proj1 (stored_incidents_are_well_formed demo_clock demo_random ops)
                   demo_id _ _)).
  vm_compute. reflexivity.
Defined.

(** ** Metrics and the mutators *)

Lemma filter_length_map_set (f : Incident -> bool) i v v' (m : list (string * Incident)) :
  map_get i m = Some v ->
  (length (List.filter f (map_values (map_set i v' m))) + b2n (f v)
   = length (List.filter f (map_values m)) + b2n (f v'))%nat.
Proof.
  unfold map_values. induction m as [|[k x] m IH]; cbn [map_get map_set]; [done|].
  destruct (String.eqb k i) eqn:E.
  - intros [= ->]. cbn [map snd List.filter].
    destruct (f v), (f v'); cbn; lia.
  - intros G. specialize (IH G). cbn [map snd List.filter].
    destruct (f x); cbn; lia.
Qed.

Lemma status_count_spec mgr s :
  status_count (getIncidentMetrics mgr) s = count_status s (getAllIncidents mgr).
Proof. by destruct s. Qed.

Lemma mutated_counts (f : Incident -> bool) w w' i inc inc' :
  mutated w w' i inc inc' ->
  (length (List.filter f (getAllIncidents (manager w'))) + b2n (f inc)
   = length (List.filter f (getAllIncidents (manager w))) + b2n (f inc'))%nat.
Proof.
  intros (G & E & _). unfold getAllIncidents. rewrite E.
  by apply filter_length_map_set.
Qed.

Lemma mutated_total w w' i inc inc' :
  mutated w w' i inc inc' ->
  length (getAllIncidents (manager w')) = length (getAllIncidents (manager w)).
Proof.
  intros Hm. pose proof (mutated_counts (fun _ => true) _ _ _ _ _ Hm) as H.
  assert (forall l : list Incident, List.filter (fun _ => true) l = l) as Hall.
  { induction l as [|x l IH]; [done|]. cbn. by rewrite IH. }
  rewrite !Hall in H. cbn in H. lia.
Qed.

(** X8.  On a stored incident: [assignIncident] and [addIncidentComment]
    change no count of the metrics snapshot; [updateIncidentStatus] moves
    exactly one incident from the bucket of the old status to the bucket of
    the new one and changes neither the total nor any per-severity count. *)
Theorem mutators_move_only_status_counts clock mathRandom w i inc :
  getIncident (manager w) i = Some inc ->
  let m := getIncidentMetrics (manager w) in
  let unchanged m' :=
    total m' = total m
    /\ (forall s, status_count m' s = status_count m s)
    /\ (forall sv, bySeverity m' sv = bySeverity m sv) in
  (forall a,
     unchanged (getIncidentMetrics (manager (assignIncident clock mathRandom i a w).2)))
  /\ (forall msg u,
     unchanged
       (getIncidentMetrics (manager (addIncidentComment clock mathRandom i msg u w).2)))
  /\ (forall s u,
     let m' :=
       getIncidentMetrics (manager (updateIncidentStatus clock mathRandom i s u w).2) in
     total m' = total m
     /\ (forall sv, bySeverity m' sv = bySeverity m sv)
     /\ (forall s', (status_count m' s' + b2n (status_eqb (status inc) s')
                     = status_count m s' + b2n (status_eqb s s'))%nat)).
Proof.
  intros G. cbv zeta. split; [|split].
  - intros a.
    destruct (assignIncident_effect clock mathRandom w i a inc G)
      as (w' & e & -> & Hm & _). cbn [snd].
    split; [by apply (mutated_total _ _ _ _ _ Hm)|]. split.
    + intros s. rewrite !status_count_spec. unfold count_status.
      pose proof (mutated_counts (fun x => status_eqb (status x) s) _ _ _ _ _ Hm) as H.
      cbn in H. lia.
    + intros sv. cbn. unfold count_severity.
      pose proof (mutated_counts (fun x => severity_eqb (severity x) sv) _ _ _ _ _ Hm) as H.
      cbn in H. lia.
  - intros msg u.
    destruct (addIncidentComment_effect clock mathRandom w i msg u inc G)
      as (w' & e & -> & Hm & _). cbn [snd].
    split; [by apply (mutated_total _ _ _ _ _ Hm)|]. split.
    + intros s. rewrite !status_count_spec. unfold count_status.
      pose proof (mutated_counts (fun x => status_eqb (status x) s) _ _ _ _ _ Hm) as H.
      cbn in H. lia.
    + intros sv. cbn. unfold count_severity.
      pose proof (mutated_counts (fun x => severity_eqb (severity x) sv) _ _ _ _ _ Hm) as H.
      cbn in H. lia.
  - intros s u.
    destruct (updateIncidentStatus_effect clock mathRandom w i s u inc G)
      as (w' & e & -> & Hm & _). cbn [snd].
    split; [by apply (mutated_total _ _ _ _ _ Hm)|]. split.
    + intros sv. cbn. unfold count_severity.
      pose proof (mutated_counts (fun x => severity_eqb (severity x) sv) _ _ _ _ _ Hm) as H.
      cbv beta in H.
      match type of H with context [severity (timeline_push ?e ?x)] =>
        assert (severity (timeline_push e x) = severity inc) as Hsv by by destruct s
      end.
      rewrite Hsv in H. lia.
    + intros s'. rewrite !status_count_spec. unfold count_status.
      pose proof (mutated_counts (fun x => status_eqb (status x) s') _ _ _ _ _ Hm) as H.
      cbv beta in H.
      match type of H with context [status (timeline_push ?e ?x)] =>
        assert (status (timeline_push e x) = s) as Hst by by destruct s
      end.
      rewrite Hst in H. exact H.
Qed.

Lemma mutators_move_only_status_counts_witness :
  let w := run demo_clock demo_random [OpCreate demo_request] initial_world in
  let m' := getIncidentMetrics
              (manager (updateIncidentStatus demo_clock demo_random demo_id
                          S_resolved None w).2) in
  (resolved m' + 0 = resolved (getIncidentMetrics (manager w)) + 1)%nat.
Proof.
  intros w m'.
  assert (exists inc, getIncident (manager w) demo_id = Some inc
                      /\ status inc = S_open) as (inc & G & Hst).
  { eexists. split; vm_compute; reflexivity. }
  destruct (mutators_move_only_status_counts demo_clock demo_random w demo_id inc G)
    as (_ & _ & Hupd).
  destruct (Hupd S_resolved None) as (_ & _ & Hcount).
  specialize (Hcount S_resolved). rewrite Hst in Hcount. exact Hcount.
Defined.

(** ** Filters and reports *)

Lemma filter_length_le {A} (f : A -> bool) (l : list A) :
  (length (List.filter f l) <= length l)%nat.
Proof. induction l as [|x l IH]; [done|]. cbn. destruct (f x); cbn; lia. Qed.

Lemma filter_length_mono {A} (f g : A -> bool) (l : list A) :
  (forall x, f x = true -> g x = true) ->
  (length (List.filter f l) <= length (List.filter g l))%nat.
Proof.
  intros Hfg. induction l as [|x l IH]; [done|]. cbn.
  destruct (f x) eqn:E.
  - rewrite (Hfg x E). cbn. lia.
  - destruct (g x); cbn; lia.
Qed.

Lemma open_count_split (l : list Incident) :
  length (List.filter
            (fun i => status_eqb (status i) S_open
                      || status_eqb (status i) S_investigating) l)
  = (count_status S_open l + count_status S_investigating l)%nat.
Proof.
  induction l as [|i l IH]; [done|].
  rewrite !count_status_cons. cbn [List.filter].
  destruct (status i); cbn; lia.
Qed.

(** X9.  [getIncidentsByAssignee] lists, in the order of [getAllIncidents],
    exactly the incidents whose assignee is set to that user.  After a
    successful [assignIncident(i, a)] the incident stored under [i] is
    listed for [a], and for no other user. *)
Theorem assignee_filter_follows_assignment clock mathRandom w i a inc :
  getIncident (manager w) i = Some inc ->
  let w' := (assignIncident clock mathRandom i a w).2 in
  (forall mgr b x,
     x ∈ getIncidentsByAssignee mgr b
     <-> x ∈ getAllIncidents mgr /\ assignee x = Some b)
  /\ (forall mgr b, sublist (getIncidentsByAssignee mgr b) (getAllIncidents mgr))
  /\ exists inc',
       getIncident (manager w') i = Some inc'
       /\ inc' ∈ getIncidentsByAssignee (manager w') a
       /\ forall b, b ≠ a -> inc' ∉ getIncidentsByAssignee (manager w') b.
Proof.
  intros G w'.
  assert (forall mgr b x,
            x ∈ getIncidentsByAssignee mgr b
            <-> x ∈ getAllIncidents mgr /\ assignee x = Some b) as Hmem.
  { intros mgr b x. unfold getIncidentsByAssignee.
    rewrite list_elem_of_In, filter_In, <- list_elem_of_In.
    assert (opt_is (assignee x) b = true <-> assignee x = Some b) as ->; [|done].
    unfold opt_is. destruct (assignee x) as [s|]; [|done].
    rewrite String.eqb_eq. split; [by intros ->|by intros [= ->]]. }
  split; [exact Hmem|]. split.
  - intros mgr b. unfold getIncidentsByAssignee.
    induction (getAllIncidents mgr) as [|x l IH]; [done|]. cbn.
    destruct (opt_is (assignee x) b); by constructor.
  - subst w'.
    destruct (assignIncident_effect clock mathRandom w i a inc G)
      as (w' & e & -> & Hm & _). cbn [snd].
    destruct (mutated_get _ _ _ _ _ Hm) as [Hget _].
    eexists. split; [exact Hget|]. split.
    + apply Hmem. split; [|done].
      unfold getIncident in Hget. by apply map_get_values in Hget.
    + intros b Hb [_ Habs]%Hmem. cbn in Habs. congruence.
Qed.

Lemma assignee_filter_follows_assignment_witness :
  let w := run demo_clock demo_random [OpCreate demo_request] initial_world in
  let w' := (assignIncident demo_clock demo_random demo_id "U1" w).2 in
  exists inc',
    getIncident (manager w') demo_id = Some inc'
    /\ inc' ∈ getIncidentsByAssignee (manager w') "U1".
Proof.
  intros w w'.
  assert (exists inc, getIncident (manager w) demo_id = Some inc) as [inc G].
  { eexists. vm_compute. reflexivity. }
  destruct (assignee_filter_follows_assignment demo_clock demo_random w demo_id "U1"
              inc G) as (_ & _ & inc' & Hget & Hin & _).
  by exists inc'.
Defined.

(** X10.  In the daily report the critical incidents created today are at
    most the incidents created today, which are at most all incidents; the
    incidents resolved today are at most the incidents that have a
    [resolvedAt]; and [activeIncidents] is the open count plus the
    investigating count of the metrics snapshot, the value
    [updateIncidentStatusMetrics] writes to the active gauge. *)
Theorem daily_report_counts_are_consistent setHours0 now mgr :
  let d := generateDailyMetrics setHours0 now mgr in
  let m := getIncidentMetrics mgr in
  (criticalIncidentsToday d <= incidentsCreatedToday d)%nat
  /\ (incidentsCreatedToday d <= total m)%nat
  /\ (incidentsResolvedToday d
      <= length (List.filter (fun i => isSome (resolvedAt i)) (getAllIncidents mgr)))%nat
  /\ (incidentsResolvedToday d <= total m)%nat
  /\ dm_activeIncidents d = (open m + investigating m)%nat
  /\ forall c,
       gauge (activeIncidents (updateIncidentStatusMetrics c mgr)) "total"
       = dm_activeIncidents d.
Proof.
  cbn. split; [|split; [|split; [|split; [|split]]]].
  - apply filter_length_mono. by intros x [? _]%andb_true_iff.
  - apply filter_length_le.
  - apply filter_length_mono. intros x. unfold resolved_since.
    by destruct (resolvedAt x).
  - apply filter_length_le.
  - unfold getOpenIncidents. apply open_count_split.
  - intros c. unfold gauge, updateIncidentStatusMetrics. cbn.
    rewrite lookup_insert_eq. cbn. unfold getOpenIncidents.
    by rewrite open_count_split.
Qed.

(** ** Mean time to resolve *)

Lemma fold_resolution_nonneg l : forall z,
  Forall (fun i => forall r, resolvedAt i = Some r -> (createdAt i <= r)%Z) l ->
  (z <= fold_left add_resolution_ms l z)%Z.
Proof.
  induction l as [|i l IH]; intros z Hl; [done|].
  apply Forall_cons in Hl as [Hi Hl]. cbn [fold_left].
  etrans; [|by apply IH]. unfold add_resolution_ms.
  destruct (resolvedAt i) as [r|]; [|done]. specialize (Hi r eq_refl). lia.
Qed.

Lemma average_nonneg (l : list Incident) :
  Forall (fun i => forall r, resolvedAt i = Some r -> (createdAt i <= r)%Z) l ->
  (0 <= inject_Z (fold_left add_resolution_ms l 0%Z)
        / inject_Z (Z.of_nat (length l)) / inject_Z (1000 * 60))%Q.
Proof.
  intros Hl. unfold Qdiv.
  apply Qmult_le_0_compat; [apply Qmult_le_0_compat|].
  - change 0%Q with (inject_Z 0). rewrite <- Zle_Qle. by apply fold_resolution_nonneg.
  - apply Qinv_le_0_compat. change 0%Q with (inject_Z 0). rewrite <- Zle_Qle. lia.
  - done.
Qed.

Lemma Math_round_nonneg x : (0 <= x)%Q -> (0 <= Math_round x)%Z.
Proof.
  intros Hx. unfold Math_round. change 0%Z with (Qfloor 0).
  apply Qfloor_resp_le. rewrite <- (Qplus_0_r 0).
  by apply Qplus_le_compat.
Qed.

(** X11.  When the clock never goes backwards then, after any sequence of
    calls on a new manager, every listed incident that has a [resolvedAt]
    was resolved no earlier than it was created; so the average resolution
    time of the daily report is never negative, whatever the time of the
    report and wherever midnight falls. *)
Theorem daily_average_is_not_negative clock mathRandom ops :
  (forall n, (clock n <= clock (S n))%Z) ->
  let mgr := manager (run clock mathRandom ops initial_world) in
  (forall inc r, inc ∈ getAllIncidents mgr -> resolvedAt inc = Some r ->
                 (createdAt inc <= r)%Z)
  /\ forall setHours0 now,
       (0 <= avgResolutionTimeToday (generateDailyMetrics setHours0 now mgr))%Z.
Proof.
  intros Hclock mgr.
  assert (Forall (fun i => forall r, resolvedAt i = Some r -> (createdAt i <= r)%Z)
            (getAllIncidents mgr)) as Hall.
  { apply Forall_forall. intros inc Hin r Er.
    destruct (run_listed clock mathRandom ops) as [_ Hlook].
    pose proof (run_times_ordered clock mathRandom Hclock ops _ _ (Hlook inc Hin))
      as (_ & _ & Hr & _).
    specialize (Hr r Er). lia. }
  split.
  { intros inc r Hin. rewrite Forall_forall in Hall. by apply Hall. }
  assert (forall f, Forall (fun i => forall r, resolvedAt i = Some r ->
                                      (createdAt i <= r)%Z)
                      (List.filter f (getAllIncidents mgr))) as Hsub.
  { intros f. apply Forall_forall. intros x Hx.
    apply list_elem_of_In, filter_In in Hx as [Hx _].
    rewrite Forall_forall in Hall. by apply Hall, list_elem_of_In. }
  intros setHours0 now. unfold generateDailyMetrics. cbn [avgResolutionTimeToday].
  apply Math_round_nonneg.
  destruct (0 <? length _)%nat; [|done]. apply average_nonneg, Hsub.
Qed.

Lemma daily_average_is_not_negative_witness :
  let mgr := manager (run demo_clock demo_random
                        [OpCreate demo_request;
                         OpUpdateStatus demo_id S_resolved None] initial_world) in
  (0 <= avgResolutionTimeToday
          (generateDailyMetrics setHours0_utc (demo_clock 9) mgr))%Z.
Proof.
  intros mgr.
  refine (proj2 (daily_average_is_not_negative demo_clock demo_random
                   [OpCreate demo_request;
                    OpUpdateStatus demo_id S_resolved None] _) _ _).
  intros n. unfold demo_clock. lia.
Defined.

(** ** On-call schedules *)

Lemma run_keeps_schedules clock mathRandom ops : forall w,
  onCallSchedules (manager (run clock mathRandom ops w)) = onCallSchedules (manager w)
  /\ incidentEvents (manager (run clock mathRandom ops w)) = incidentEvents (manager w).
Proof.
  induction ops as [|op ops IH]; intros w; [done|].
  cbn [run]. destruct (IH (step clock mathRandom op w).2) as [-> ->].
  by destruct (step_cases clock mathRandom op w) as [[_ ->]|(i & inc' & _ & -> & _)].
Qed.

(** X13.  No incident call touches the on-call table: after any sequence
    of calls, from any state, every team has the schedule it had.  On a new
    manager the default team therefore always answers with the built-in
    roster, and a team that does not exist answers with no primary, no
    secondary and an empty escalation list; leaving the team out asks for
    the default team. *)
Theorem incident_calls_keep_on_call clock mathRandom ops w :
  (forall team,
     getCurrentOnCall (manager (run clock mathRandom ops w)) team
     = getCurrentOnCall (manager w) team)
  /\ (forall team,
     getOnCallSchedule (manager (run clock mathRandom ops w)) team
     = getOnCallSchedule (manager w) team)
  /\ getCurrentOnCall (manager (run clock mathRandom ops initial_world)) None
     = {| oc_primary := Some "U123456789";
          oc_secondary := Some "U987654321";
          oc_escalation := ["U555666777"; "U888999000"] |}
  /\ (forall team,
     getCurrentOnCall (manager (run clock mathRandom ops initial_world)) (Some team)
     = if decide (team = "default")
       then getCurrentOnCall (manager initial_world) None
       else {| oc_primary := None; oc_secondary := None; oc_escalation := [] |}).
Proof.
  assert (forall w0 team,
            getCurrentOnCall (manager (run clock mathRandom ops w0)) team
            = getCurrentOnCall (manager w0) team) as Hcur.
  { intros w0 team. unfold getCurrentOnCall.
    by destruct (run_keeps_schedules clock mathRandom ops w0) as [-> _]. }
  split; [apply Hcur|]. split.
  { intros team. unfold getOnCallSchedule.
    by destruct (run_keeps_schedules clock mathRandom ops w) as [-> _]. }
  split.
  - rewrite Hcur. unfold getCurrentOnCall. cbn.
    by rewrite lookup_insert_eq.
  - intros team. rewrite Hcur. unfold getCurrentOnCall. cbn.
    case_decide as E.
    + subst. by rewrite lookup_insert_eq.
    + rewrite lookup_insert_ne by done. by rewrite lookup_empty.
Qed.

(** ** The webhook adapter *)

Lemma createIncident_spelled clock mathRandom request w :
  createIncident clock mathRandom request w
  = (new_incident clock mathRandom request (dateCalls w) (randomCalls w),
     world_after w (OpCreate request)
       (incidentId_at clock mathRandom (dateCalls w) (randomCalls w))
       (new_incident clock mathRandom request (dateCalls w) (randomCalls w))).
Proof. by unfold_m. Qed.

Lemma js_or_truthy a b : js_truthy (js_or a b) = js_truthy a || js_truthy b.
Proof. unfold js_or. by destruct (js_truthy a) eqn:E; rewrite ?E. Qed.

(** X14.  [handleIncomingAlert] throws before it creates anything, and the
    world is as before, when the body is [null] or [undefined], and when
    the severity it picks -- the alert's severity, or its priority when the
    severity is falsy -- is truthy and not a string.  Otherwise, when the
    title and the description it picks are strings, it stores one new
    incident under the generated id: its source is webhook, its status
    open, it has no assignee and keeps the alert as metadata; its severity
    is the normalisation of the picked severity when that is a string, and
    of nothing otherwise; its title is the alert's summary, else its title,
    else "Unknown Alert", falsy values being passed over: the title is
    never empty. *)
Theorem alert_becomes_webhook_incident clock mathRandom w :
  handleIncomingAlert clock mathRandom None w = AlertThrew w
  /\ forall alert,
       let picked := js_or (al_severity alert) (al_priority alert) in
       (js_truthy picked = true -> js_string picked = None ->
        handleIncomingAlert clock mathRandom (Some alert) w = AlertThrew w)
       /\ forall title0 description0,
            (js_truthy picked = true -> is_Some (js_string picked)) ->
            js_or (js_or (al_summary alert) (al_title alert))
              (JsString "Unknown Alert") = JsString title0 ->
            js_or (js_or (al_description alert) (al_message alert)) (JsString "")
              = JsString description0 ->
            exists w' inc,
              handleIncomingAlert clock mathRandom (Some alert) w = AlertProcessed w'
              /\ getIncident (manager w')
                   (incidentId_at clock mathRandom (dateCalls w) (randomCalls w))
                 = Some inc
              /\ source inc = Src_webhook
              /\ status inc = S_open
              /\ assignee inc = None
              /\ metadata inc = Some (al_body alert)
              /\ description inc = Some description0
              /\ severity inc = mapAlertSeverity (js_string picked)
              /\ title inc = title0
              /\ title0
                 = (if js_truthy (al_summary alert)
                    then default "" (js_string (al_summary alert))
                    else if js_truthy (al_title alert)
                    then default "" (js_string (al_title alert))
                    else "Unknown Alert")
              /\ title0 ≠ "".
Proof.
  split; [done|]. intros alert picked. split.
  - intros Ht Hs. unfold handleIncomingAlert. fold picked.
    by destruct picked as [|s|[|]].
  - intros title0 description0 Hsev Htitle Hdesc.
    unfold handleIncomingAlert. fold picked. rewrite Htitle, Hdesc.
    assert (mapAlertSeverity_any picked = Some (mapAlertSeverity (js_string picked)))
      as ->.
    { destruct picked as [|s|[|]]; try done.
      by destruct (Hsev eq_refl) as [? [=]]. }
    rewrite createIncident_spelled.
    eexists _, _. split; [done|].
    split; [rewrite getIncident_world_after; by rewrite decide_True|].
    unfold new_incident, created_incident.
    cbn [source status assignee metadata description severity title req_title
         req_description req_severity req_assignee req_source req_tags req_metadata].
    repeat split; try done.
    + unfold js_or at 2 in Htitle.
      destruct (js_truthy (al_summary alert)) eqn:E1.
      * unfold js_or in Htitle. rewrite E1 in Htitle. by rewrite Htitle.
      * unfold js_or in Htitle.
        destruct (js_truthy (al_title alert)) eqn:E2.
        -- by rewrite Htitle.
        -- by injection Htitle as <-.
    + intros ->.
      assert (js_truthy (JsString "") = true) as Hx; [|done].
      rewrite <- Htitle, !js_or_truthy. apply orb_true_r.
Qed.

Lemma alert_becomes_webhook_incident_witness :
  exists w' inc,
    handleIncomingAlert demo_clock demo_random (Some demo_alert) initial_world
      = AlertProcessed w'
    /\ getIncident (manager w') demo_id = Some inc
    /\ severity inc = P0
    /\ title inc = "Disk full".
Proof.
  destruct (proj2 (proj2 (alert_becomes_webhook_incident demo_clock demo_random
                            initial_world) demo_alert) "Disk full" "")
    as (w' & inc & E & G & _ & _ & _ & _ & _ & Hsev & Htitle & _).
  - intros _. by eexists.
  - reflexivity.
  - reflexivity.
  - exists w', inc. split; [exact E|]. split; [|split].
    + exact G.
    + rewrite Hsev. vm_compute. reflexivity.
    + exact Htitle.
Defined.

(** An alert whose severity is a number ends in a TypeError. *)
Example numeric_severity_throws clock mathRandom w :
  handleIncomingAlert clock mathRandom
    (Some {| al_severity := JsOther true; al_priority := JsString "low";
             al_summary := JsNullish; al_title := JsNullish;
             al_description := JsNullish; al_message := JsNullish;
             al_body := "{...}" |}) w
  = AlertThrew w.
Proof. reflexivity. Qed.

(** ** The slash commands *)

Lemma severity_of_token_spec s sev :
  severity_of_token s = Some sev <-> s = severity_str sev.
Proof.
  unfold severity_of_token, includes. cbn [existsb].
  rewrite !(String.eqb_sym s).
  destruct (String.eqb "P0" s) eqn:E0; [apply String.eqb_eq in E0; subst; cbn|].
  { split; [by intros [= <-]|by destruct sev]. }
  destruct (String.eqb "P1" s) eqn:E1; [apply String.eqb_eq in E1; subst; cbn|].
  { split; [by intros [= <-]|by destruct sev]. }
  destruct (String.eqb "P2" s) eqn:E2; [apply String.eqb_eq in E2; subst; cbn|].
  { split; [by intros [= <-]|by destruct sev]. }
  destruct (String.eqb "P3" s) eqn:E3; [apply String.eqb_eq in E3; subst; cbn|].
  { split; [by intros [= <-]|by destruct sev]. }
  cbn. apply String.eqb_neq in E0, E1, E2, E3.
  split; [done|]. intros ->. by destruct sev.
Qed.

Lemma remove_char_removes c s :
  string_forall (fun c' => negb (Ascii.eqb c' c)) (remove_char c s) = true.
Proof.
  induction s as [|c' s IH]; [done|]. cbn.
  destruct (Ascii.eqb c' c) eqn:E; [done|]. cbn. by rewrite E, IH.
Qed.

(** X15.  [handleCreateIncident] answers with the usage text exactly when
    the command has fewer than two words, and with "invalid severity"
    exactly when it has at least two and its last word, upper-cased, is
    not P0, P1, P2 or P3.  In both cases it returns before the manager is
    called: the world is as before, and not even the clock has been read. *)
Theorem create_command_rejects_before_creating clock mathRandom slack args userId w :
  let r := handleCreateIncident clock mathRandom slack args userId w in
  (r.1 = CR_usage <-> (length args < 2)%nat)
  /\ (r.1 = CR_invalid_severity
      <-> (2 <= length args)%nat
          /\ forall sev, toUpperCase (List.last args "") ≠ severity_str sev)
  /\ (r.1 = CR_usage \/ r.1 = CR_invalid_severity -> r.2 = w).
Proof.
  cbv zeta. unfold handleCreateIncident.
  destruct (length args <? 2)%nat eqn:Elen.
  - apply Nat.ltb_lt in Elen. cbn. split; [done|]. split; [|done].
    split; [done|]. intros [? _]. lia.
  - apply Nat.ltb_ge in Elen.
    destruct (severity_of_token (toUpperCase (List.last args ""))) as [sev|] eqn:Etok.
    + apply severity_of_token_spec in Etok.
      unfold mbind, M_bind, mret, M_ret. rewrite createIncident_spelled.
      assert (forall x : CreateReply * World,
                (exists i c, x.1 = CR_created i c) \/ x.1 = CR_failed ->
                (x.1 = CR_usage <-> (length args < 2)%nat)
                /\ (x.1 = CR_invalid_severity
                    <-> (2 <= length args)%nat
                        /\ forall sev, toUpperCase (List.last args "")
                                       ≠ severity_str sev)
                /\ (x.1 = CR_usage \/ x.1 = CR_invalid_severity -> x.2 = w)) as Hgen.
      { intros x Hx. split; [|split].
        - split; [|lia]. intros E. destruct Hx as [(? & ? & Hx)|Hx]; congruence.
        - split.
          + intros E. destruct Hx as [(? & ? & Hx)|Hx]; congruence.
          + intros [_ Hno]. by destruct (Hno sev).
        - intros [E|E]; destruct Hx as [(? & ? & Hx)|Hx]; congruence. }
      apply Hgen.
      destruct (conversations_create slack _); [|by right].
      unfold write_channelId, getIncidents, putIncidents, mbind, M_bind, mret, M_ret.
      cbn. rewrite map_get_set_eq. cbn.
      destruct (chat_postMessage_ok slack); [left; by eexists _, _|by right].
    + cbn. split; [split; [done|lia]|]. split; [|done].
      split; [|done]. intros _. split; [done|].
      intros sev Hsev. apply severity_of_token_spec in Hsev. congruence.
Qed.

Lemma create_command_rejects_before_creating_witness :
  (handleCreateIncident demo_clock demo_random
     {| conversations_create := fun _ => None; chat_postMessage_ok := true |}
     ["Database"; "down"; "urgent"] "U1" initial_world).2 = initial_world.
Proof.
  apply (create_command_rejects_before_creating demo_clock demo_random).
  right. vm_compute. reflexivity.
Defined.

(** X16.  When [handleCreateIncident] accepts a command it creates an
    open incident whose assignee is the caller, whose source is manual,
    whose severity is the one named by the last word and whose title is
    the other words joined by spaces with every double quote removed.  The
    incident gets the id of the Slack channel as [channelId] once the
    channel exists.  When creating the channel or posting to it fails the
    answer is a failure, but the incident stays in the store. *)
Theorem create_command_stores_incident clock mathRandom slack args userId w :
  (2 <= length args)%nat ->
  forall sev, toUpperCase (List.last args "") = severity_str sev ->
  let r := handleCreateIncident clock mathRandom slack args userId w in
  let i := incidentId_at clock mathRandom (dateCalls w) (randomCalls w) in
  let channel := conversations_create slack ("incident-" +:+ toLowerCase i) in
  exists inc,
    getIncident (manager r.2) i = Some inc
    /\ status inc = S_open
    /\ assignee inc = Some userId
    /\ source inc = Src_manual
    /\ severity inc = sev
    /\ title inc = remove_char dquote (join " " (List.removelast args))
    /\ string_forall (fun c => negb (Ascii.eqb c dquote)) (title inc) = true
    /\ channelId inc = channel
    /\ r.1 = match channel with
             | Some c => if chat_postMessage_ok slack then CR_created i c else CR_failed
             | None => CR_failed
             end.
Proof.
  intros Hlen sev Htok. cbv zeta. unfold handleCreateIncident.
  apply Nat.ltb_ge in Hlen. rewrite Hlen.
  apply severity_of_token_spec in Htok. rewrite Htok.
  unfold mbind, M_bind, mret, M_ret. rewrite createIncident_spelled.
  cbn [id new_incident created_incident].
  destruct (conversations_create slack _) as [c|].
  - unfold write_channelId, getIncidents, putIncidents, mbind, M_bind, mret, M_ret.
    cbn. rewrite map_get_set_eq. cbn.
    eexists. split.
    { destruct (chat_postMessage_ok slack); cbn; unfold getIncident; cbn;
        apply map_get_set_eq. }
    cbn. repeat split; try done.
    + apply remove_char_removes.
    + by destruct (chat_postMessage_ok slack).
  - cbn. eexists. split; [unfold getIncident; cbn; apply map_get_set_eq|].
    cbn. repeat split; try done. apply remove_char_removes.
Qed.

Lemma create_command_stores_incident_witness :
  let slack := {| conversations_create := fun _ => None;
                  chat_postMessage_ok := true |} in
  let r := handleCreateIncident demo_clock demo_random slack
             ["Database"; "down"; "p1"] "U1" initial_world in
  r.1 = CR_failed
  /\ exists inc, getIncident (manager r.2) demo_id = Some inc
                 /\ title inc = "Database down".
Proof.
  intros slack r.
  destruct (create_command_stores_incident demo_clock demo_random slack
              ["Database"; "down"; "p1"] "U1" initial_world ltac:(cbn; lia) P1
              ltac:(vm_compute; reflexivity))
    as (inc & G & _ & _ & _ & _ & Ht & _ & _ & Hr).
  split; [exact Hr|]. exists inc. split; [exact G|exact Ht].
Defined.

(** *** User mentions *)

Lemma take_mention_chars_run u rest :
  string_forall is_mention_char u = true ->
  (forall c rest', rest = String c rest' -> is_mention_char c = false) ->
  take_mention_chars (u +:+ rest) = (u, rest).
Proof.
  intros Hu Hrest. induction u as [|c u IH].
  - change ("" +:+ rest) with rest.
    destruct rest as [|c rest']; [done|].
    cbn [take_mention_chars]. by rewrite (Hrest c rest').
  - cbn [string_forall] in Hu. apply andb_true_iff in Hu as [Hc Hu].
    rewrite append_cons. cbn [take_mention_chars]. by rewrite Hc, IH.
Qed.

Lemma take_mention_chars_spec s u rest :
  take_mention_chars s = (u, rest) ->
  s = u +:+ rest /\ string_forall is_mention_char u = true.
Proof.
  revert u rest. induction s as [|c s IH]; intros u rest; cbn [take_mention_chars].
  - by intros [= <- <-].
  - destruct (is_mention_char c) eqn:Ec.
    + destruct (take_mention_chars s) as [u' rest'].
      intros [= <- <-]. destruct (IH u' rest' eq_refl) as [-> Hu'].
      rewrite append_cons. cbn [string_forall]. by rewrite Ec.
    + by intros [= <- <-].
Qed.

Lemma mention_at_spec s u :
  mention_at s = Some u ->
  u ≠ "" /\ string_forall is_mention_char u = true
  /\ exists post, s = "<@" +:+ u +:+ ">" +:+ post.
Proof.
  unfold mention_at.
  destruct s as [|c1 [|c2 s]]; try done;
    try (destruct c1 as [[] [] [] [] [] [] [] []]; done).
  destruct (Ascii.eqb c1 "<") eqn:E1;
    [apply Ascii.eqb_eq in E1; subst c1
    |destruct c1 as [[] [] [] [] [] [] [] []]; done].
  destruct (Ascii.eqb c2 "@") eqn:E2;
    [apply Ascii.eqb_eq in E2; subst c2
    |destruct c2 as [[] [] [] [] [] [] [] []]; done].
  destruct (take_mention_chars s) as [u' rest] eqn:Et.
  destruct (take_mention_chars_spec _ _ _ Et) as [-> Hu'].
  destruct u' as [|c u']; [done|].
  destruct rest as [|c3 rest]; [done|].
  destruct (Ascii.eqb c3 ">") eqn:E3;
    [apply Ascii.eqb_eq in E3; subst c3
    |destruct c3 as [[] [] [] [] [] [] [] []]; done].
  intros [= <-]. split; [done|]. split; [done|]. by exists rest.
Qed.

Lemma mention_at_complete u post :
  u ≠ "" -> string_forall is_mention_char u = true ->
  mention_at ("<@" +:+ u +:+ ">" +:+ post) = Some u.
Proof.
  intros Hne Hu.
  change ("<@" +:+ u +:+ ">" +:+ post)
    with (String "<" (String "@" (u +:+ ">" +:+ post))).
  unfold mention_at.
  rewrite (take_mention_chars_run u (">" +:+ post)); [|done|].
  - by destruct u.
  - intros c rest' [= <- _]. done.
Qed.

(** X17.  The user id [handleAssignCommand] extracts from a mention is the
    first group of the leftmost match of [<@([A-Z0-9]+)>]: it is never
    empty, consists of upper-case letters and digits only, and stands in
    the text between [<@] and [>].  A text has a match exactly when it
    contains such a mention, and the mention of an id alone gives back the
    id. *)
Theorem mention_match_is_sound_and_complete :
  (forall s u, matchUserMention s = Some u ->
     u ≠ "" /\ string_forall is_mention_char u = true
     /\ exists pre post, s = pre +:+ "<@" +:+ u +:+ ">" +:+ post)
  /\ (forall pre u post,
        u ≠ "" -> string_forall is_mention_char u = true ->
        is_Some (matchUserMention (pre +:+ "<@" +:+ u +:+ ">" +:+ post)))
  /\ (forall u,
        u ≠ "" -> string_forall is_mention_char u = true ->
        matchUserMention ("<@" +:+ u +:+ ">") = Some u).
Proof.
  split; [|split].
  - induction s as [|c s IH]; intros u; [done|].
    cbn [matchUserMention].
    destruct (mention_at (String c s)) as [u'|] eqn:E.
    + intros [= ->]. destruct (mention_at_spec _ _ E) as (Hne & Hu & post & Hs).
      split; [done|]. split; [done|]. by exists "", post.
    + intros H. destruct (IH u H) as (Hne & Hu & pre & post & ->).
      split; [done|]. split; [done|]. by exists (String c pre), post.
  - intros pre u post Hne Hu. induction pre as [|c pre IH].
    + change ("" +:+ ?x) with x. destruct u as [|c u]; [done|].
      assert (mention_at ("<@" +:+ String c u +:+ ">" +:+ post) = Some (String c u))
        as E by by apply mention_at_complete.
      change ("<@" +:+ String c u +:+ ">" +:+ post)
        with (String "<" (String "@" (String c u +:+ ">" +:+ post))) in E |- *.
      cbn [matchUserMention]. by rewrite E.
    + rewrite append_cons. cbn [matchUserMention].
      by destruct (mention_at (String c (pre +:+ _))).
  - intros u Hne Hu. destruct u as [|c u]; [done|].
    assert (mention_at ("<@" +:+ String c u +:+ ">" +:+ "") = Some (String c u))
      as E by by apply mention_at_complete.
    change ("<@" +:+ String c u +:+ ">" +:+ "")
      with (String "<" (String "@" (String c u +:+ ">"))) in E.
    change ("<@" +:+ String c u +:+ ">")
      with (String "<" (String "@" (String c u +:+ ">"))).
    cbn [matchUserMention]. by rewrite E.
Qed.

Lemma mention_match_is_sound_and_complete_witness :
  matchUserMention "<@U12AB>" = Some "U12AB".
Proof.
  destruct mention_match_is_sound_and_complete as (_ & _ & H).
  by apply (H "U12AB").
Defined.

(** *** Commands in an incident channel *)

Lemma elem_map_set {V} (i k : string) (v' x : V) (m : list (string * V)) :
  NoDup (map fst m) ->
  (k, x) ∈ map_set i v' m ->
  (k = i /\ x = v') \/ ((k, x) ∈ m /\ k ≠ i).
Proof.
  induction m as [|[k0 v0] m IH]; cbn [map_set map fst]; intros Hnd Hin.
  - apply list_elem_of_singleton in Hin as [= -> ->]. by left.
  - apply NoDup_cons in Hnd as [Hk0 Hnd].
    destruct (String.eqb k0 i) eqn:E.
    + apply String.eqb_eq in E. subst k0.
      apply elem_of_cons in Hin as [[= -> ->]|Hin]; [by left|].
      right. split; [by apply elem_of_cons; right|].
      intros ->. apply Hk0. apply list_elem_of_fmap. by exists (i, x).
    + apply String.eqb_neq in E.
      apply elem_of_cons in Hin as [[= -> ->]|Hin].
      * right. split; [by apply elem_of_cons; left|done].
      * destruct (IH Hnd Hin) as [?|[? ?]]; [by left|].
        right. split; [by apply elem_of_cons; right|done].
Qed.

Lemma open_incidents_elem mgr x :
  x ∈ getOpenIncidents mgr <-> x ∈ getAllIncidents mgr /\ is_active x.
Proof.
  unfold getOpenIncidents.
  by rewrite list_elem_of_In, filter_In, <- list_elem_of_In, active_test.
Qed.

Lemma find_in_channel_Some c l inc :
  find_in_channel c l = Some inc -> inc ∈ l /\ channelId inc = Some c.
Proof.
  unfold find_in_channel. intros [Hin Hc]%find_some.
  split; [by apply list_elem_of_In|].
  unfold opt_is in Hc. destruct (channelId inc) as [s|]; [|done].
  apply String.eqb_eq in Hc. by subst.
Qed.


Lemma table_ok_lookup w inc :
  table_ok w -> inc ∈ getAllIncidents (manager w) ->
  getIncident (manager w) (id inc) = Some inc.
Proof.
  intros [Hnd Hkey] Hin. unfold getAllIncidents, map_values in Hin.
  apply list_elem_of_fmap in Hin as ([k x] & -> & Hin). cbn.
  rewrite (Hkey _ _ Hin). by apply map_get_elem.
Qed.

Lemma run_table_ok clock mathRandom ops :
  table_ok (run clock mathRandom ops initial_world).
Proof.
  split; [apply run_keys_NoDup|].
  intros k inc Hin. apply (run_well_formed clock mathRandom ops k inc).
  apply map_get_elem; [apply run_keys_NoDup|done].
Qed.


(** X19.  [handleAssignCommand] changes nothing when the command has no
    word, when its first word holds no mention, or when no open or
    investigating incident belongs to the channel.  Otherwise, when the
    incidents of the table sit under their own, distinct ids, it assigns the
    first such incident to the mentioned user; the incident keeps its
    status and its channel. *)
Theorem assign_command_assigns_channel_incident clock mathRandom args c w :
  let r := handleAssignCommand clock mathRandom args c w in
  match args with
  | [] => r = (AR_usage, w)
  | mention :: _ =>
      match matchUserMention mention with
      | None => r = (AR_invalid_mention, w)
      | Some user =>
          match find_in_channel c (getOpenIncidents (manager w)) with
          | None => r = (AR_no_active, w)
          | Some inc =>
              table_ok w ->
              r.1 = AR_assigned (id inc) user
              /\ exists inc',
                   getIncident (manager r.2) (id inc) = Some inc'
                   /\ assignee inc' = Some user
                   /\ status inc' = status inc
                   /\ channelId inc' = Some c
                   /\ inc' ∈ getOpenIncidents (manager r.2)
          end
      end
  end.
Proof.
  cbv zeta. unfold handleAssignCommand.
  destruct args as [|mention args]; [done|].
  destruct (matchUserMention mention) as [user|]; [|done].
  unfold getManager, mbind, M_bind, mret, M_ret.
  destruct (find_in_channel c (getOpenIncidents (manager w))) as [inc|] eqn:Efind;
    [|done].
  intros Hok.
  apply find_in_channel_Some in Efind as [Hopen Hchan].
  apply open_incidents_elem in Hopen as [Hall Hactive].
  pose proof (table_ok_lookup w inc Hok Hall) as G.
  destruct (assignIncident_effect clock mathRandom w (id inc) user inc G)
    as (w' & e & -> & Hm & _).
  destruct (mutated_get _ _ _ _ _ Hm) as [Hget _]. cbn [fst snd].
  split; [done|]. eexists. split; [exact Hget|].
  split; [done|]. split; [done|]. split; [done|].
  apply open_incidents_elem. split; [|done].
  unfold getIncident in Hget. by apply map_get_values in Hget.
Qed.




Lemma assign_command_assigns_channel_incident_witness :
  let slack := {| conversations_create := fun _ => Some "C1";
                  chat_postMessage_ok := true |} in
  let w := (handleCreateIncident demo_clock demo_random slack
              ["Database"; "down"; "p1"] "U1" initial_world).2 in
  let r := handleAssignCommand demo_clock demo_random ["<@U55>"] "C1" w in
  r.1 = AR_assigned demo_id "U55"
  /\ exists inc',
       getIncident (manager r.2) demo_id = Some inc'
       /\ assignee inc' = Some "U55".
Proof.
  intros slack w r.
  assert (exists x, incidents (manager w) = [(demo_id, x)]
                    /\ id x = demo_id
                    /\ find_in_channel "C1" (getOpenIncidents (manager w)) = Some x)
    as (x & E & Hid & Hfind).
  { eexists. repeat split; vm_compute; reflexivity. }
  assert (table_ok w) as Hok.
  { unfold table_ok. rewrite E. split.
    - apply NoDup_singleton.
    - intros k inc Hin. by apply list_elem_of_singleton in Hin as [= -> ->]. }
  assert (matchUserMention "<@U55>" = Some "U55") as Em by (vm_compute; reflexivity).
  pose proof (assign_command_assigns_channel_incident demo_clock demo_random
                ["<@U55>"] "C1" w) as H.
  cbv beta iota zeta in H. rewrite Em, Hfind, Hid in H.
  destruct (H Hok) as (Hr & inc' & G & Ha & _).
  split; [exact Hr|]. exists inc'. split; [exact G|exact Ha].
Defined.

(** ** The table stays well keyed *)

Lemma table_ok_set w w' i inc :
  table_ok w -> id inc = i ->
  incidents (manager w') = map_set i inc (incidents (manager w)) ->
  table_ok w'.
Proof.
  intros [Hnd Hkey] Hid E. unfold table_ok. rewrite E. split.
  - rewrite map_set_keys. destruct (map_get i (incidents (manager w))) eqn:G; [done|].
    apply NoDup_app. split; [done|]. split; [|apply NoDup_singleton].
    intros x Hx ->%list_elem_of_singleton. by apply map_get_None in G.
  - intros k x Hin.
    apply (elem_map_set _ _ _ _ _ Hnd) in Hin as [[-> ->]|[Hin _]]; [done|].
    by apply Hkey.
Qed.

Lemma table_ok_get w k inc :
  table_ok w -> getIncident (manager w) k = Some inc -> id inc = k.
Proof. intros [_ Hkey] G. by apply Hkey, map_get_pair. Qed.

Lemma step_table_ok clock mathRandom op w :
  table_ok w -> table_ok (step clock mathRandom op w).2.
Proof.
  intros Hok.
  destruct (step_cases clock mathRandom op w) as [[_ ->]|(i & inc' & Hwr & -> & _)];
    [done|].
  apply (table_ok_set w _ i inc' Hok); [|done].
  destruct Hwr as [request|i a inc G|i s u inc G|i msg u inc G];
    [done|apply (table_ok_get _ _ _ Hok) in G..].
  - exact G.
  - destruct s; exact G.
  - exact G.
Qed.

Lemma write_channelId_table_ok i c w :
  table_ok w -> table_ok (write_channelId i c w).2.
Proof.
  intros Hok. unfold write_channelId, getIncidents, putIncidents, mbind, M_bind,
    mret, M_ret.
  destruct (map_get i (incidents (manager w))) as [incident|] eqn:G; [|done].
  apply (table_ok_set w _ i (set_channelId (Some c) incident) Hok);
    [|reflexivity].
  exact (table_ok_get _ _ _ Hok G).
Qed.

(** X20.  The table of a new manager has its incidents under their own,
    distinct ids, and every call of the manager and every slash command
    keeps it so: the condition the assign and resolve commands rely on
    holds in every state they can be run in. *)
Theorem commands_keep_the_table_keyed clock mathRandom slack w :
  table_ok initial_world
  /\ (table_ok w ->
      (forall op, table_ok (step clock mathRandom op w).2)
      /\ (forall args u,
            table_ok (handleCreateIncident clock mathRandom slack args u w).2)
      /\ (forall args c, table_ok (handleAssignCommand clock mathRandom args c w).2)
      /\ (forall c u, table_ok (handleResolveCommand clock mathRandom c u w).2)).
Proof.
  split.
  { split; [apply NoDup_nil_2|]. intros k inc Hin. by apply elem_of_nil in Hin. }
  intros Hok. split; [intros op; by apply step_table_ok|]. split; [|split].
  - intros args u. unfold handleCreateIncident.
    destruct (length args <? 2)%nat; [done|].
    destruct (severity_of_token _) as [sev|]; [|done].
    match goal with
    | |- context [createIncident clock mathRandom ?req] =>
        pose proof (step_table_ok clock mathRandom (OpCreate req) w Hok) as Hc;
        set (request := req) in *
    end.
    cbn [step] in Hc. unfold mbind, M_bind, mret, M_ret in *.
    destruct (createIncident clock mathRandom request w) as [incident w1].
    cbn [snd] in Hc.
    destruct (conversations_create slack _) as [channel|]; [|done].
    pose proof (write_channelId_table_ok (id incident) channel w1 Hc) as Hw.
    destruct (write_channelId (id incident) channel w1) as [[] w2].
    by destruct (chat_postMessage_ok slack).
  - intros args c. unfold handleAssignCommand.
    destruct args as [|mention args]; [done|].
    destruct (matchUserMention mention) as [user|]; [|done].
    unfold getManager, mbind, M_bind, mret, M_ret.
    destruct (find_in_channel c (getOpenIncidents (manager w))) as [inc|]; [|done].
    pose proof (step_table_ok clock mathRandom (OpAssign (id inc) user) w Hok) as Hc.
    cbn [step] in Hc. unfold mbind, M_bind, mret, M_ret in Hc.
    destruct (assignIncident clock mathRandom (id inc) user w) as [[|] w1]; done.
  - intros c u. unfold handleResolveCommand.
    unfold getManager, mbind, M_bind, mret, M_ret.
    destruct (find_in_channel c (getOpenIncidents (manager w))) as [inc|]; [|done].
    pose proof (step_table_ok clock mathRandom
                  (OpUpdateStatus (id inc) S_resolved (Some u)) w Hok) as Hc.
    cbn [step] in Hc. unfold mbind, M_bind, mret, M_ret in Hc.
    destruct (updateIncidentStatus clock mathRandom (id inc) S_resolved (Some u) w)
      as [[|] w1]; done.
Qed.

Lemma commands_keep_the_table_keyed_witness :
  let slack := {| conversations_create := fun _ => Some "C1";
                  chat_postMessage_ok := true |} in
  table_ok (handleAssignCommand demo_clock demo_random ["<@U55>"] "C1"
              (handleCreateIncident demo_clock demo_random slack
                 ["Database"; "down"; "p1"] "U1" initial_world).2).2.
Proof.
  intros slack.
  pose proof (commands_keep_the_table_keyed demo_clock demo_random slack
                initial_world) as [H0 H1].
  destruct (H1 H0) as (_ & Hcreate & _).
  pose proof (Hcreate ["Database"; "down"; "p1"] "U1") as Hok.
  destruct (proj2 (commands_keep_the_table_keyed demo_clock demo_random slack _)
              Hok) as (_ & _ & Hassign & _).
  exact (Hassign ["<@U55>"] "C1").
Defined.

